(** * MediSync web client: a shallow embedding of the browser script

    The repository ships two copies of the client script:
    - [src/static/script.js], the current client (module [Static]);
    - [src/unnamed/part_000], an older copy of it (module [Legacy]).

    The script is a stateless renderer over a server-owned queue: it
    fetches JSON, rewrites parts of the document and installs handlers
    that issue further requests.  The embedding keeps that shape:
    - the document and the script's global variables are a record [page];
    - synchronous code is a state-and-exception computation [Sync A];
    - an [async] function is a resumption [Async]: a synchronous segment
      that either settles or stops at a [fetch] with its continuation;
    - the browser's event loop is a step function over a [world].

    Numbers.  Every JavaScript number handled here (durations, positions,
    list indices) is taken to be an integer of magnitude below 2^53, which
    a double represents exactly; they are modelled in [Z].  On such values
    [Math.round(s/40)] is the integer [(s + 20) / 40] (rounding half up),
    and [s % 60] is the truncated remainder [Z.rem s 60]. *)

From Stdlib Require Import ZArith Ascii String List Lia.
From stdpp Require Import base option list strings gmap pretty.

Set Warnings "-register-all".
Open Scope Z_scope.
Open Scope string_scope.

(** ** JavaScript built-ins used by the script *)

Module JS.

(** [Number.prototype.toString] on an integer: decimal digits, with a
    leading minus sign for a negative one. *)
Definition Number_toString (n : Z) : string := pretty n.

(** [String.prototype.padStart(target, pad)] for a one-character pad. *)
Definition padStart (target : nat) (pad : ascii) (s : string) : string :=
  string_of_list_ascii (replicate (target - String.length s) pad) ++ s.

(** [String.prototype.slice(0, n)]: the first [n] characters, or the
    whole string when it is shorter. *)
Definition slice0 (n : nat) (s : string) : string := String.substring 0 n s.

(** [Math.round(s / d)] for integers [s] and [d > 0]: the nearest
    integer, a tie going up. *)
Definition Math_round_div (s d : Z) : Z := (2 * s + d) / (2 * d).

(** [Math.round(s % d)]: [%] keeps the sign of the dividend and yields an
    integer on integers, which [Math.round] leaves alone. *)
Definition Math_round_rem (s d : Z) : Z := Z.rem s d.

(** The property names every plain object inherits from
    [Object.prototype]: under such a key [obj[h]] is never [undefined],
    whatever the object holds. *)
Definition inherited_key (h : string) : bool :=
  existsb (String.eqb h)
    ["constructor"; "hasOwnProperty"; "isPrototypeOf"; "propertyIsEnumerable";
     "toLocaleString"; "toString"; "valueOf"; "__proto__";
     "__defineGetter__"; "__defineSetter__"; "__lookupGetter__"; "__lookupSetter__"].

(** Truthiness of a string: only the empty string is falsy. *)
Definition truthy (s : string) : bool :=
  match s with EmptyString => false | String _ _ => true end.

(** [parseInt(s)] without a radix, on the strings the script hands to
    it: the empty string and the decimal numerals it stored itself.
    Leading ASCII white space is skipped, an optional sign is read, then
    the longest run of decimal digits; no digit at all gives [NaN], here
    [None].  Two things JavaScript does on other strings are left out:
    it also skips the white space outside ASCII (such as U+00A0), and it
    reads what follows a [0x] prefix in base 16. *)
Definition is_space (c : ascii) : bool :=
  let n := nat_of_ascii c in
  (Nat.eqb n 32 || (Nat.leb 9 n && Nat.leb n 13))%bool.

Definition digit_of (c : ascii) : option Z :=
  let n := nat_of_ascii c in
  if (Nat.leb 48 n && Nat.leb n 57)%bool then Some (Z.of_nat (n - 48)) else None.

Fixpoint skip_spaces (s : string) : string :=
  match s with
  | String c s' => if is_space c then skip_spaces s' else s
  | EmptyString => s
  end.

Fixpoint read_digits (acc : option Z) (s : string) : option Z :=
  match s with
  | String c s' =>
      match digit_of c with
      | Some d => read_digits (Some (10 * default 0 acc + d)) s'
      | None => acc
      end
  | EmptyString => acc
  end.

Definition parseInt (s : string) : option Z :=
  match skip_spaces s with
  | String "-" s' => Z.opp <$> read_digits None s'
  | String "+" s' => read_digits None s'
  | s' => read_digits None s'
  end.

End JS.

(** ** Data model *)

(** A catalog entry, as the server sends it under its identifier. *)
Record Track := { name : string; duration : Z }.

(** The playback status returned by [/api/current]. *)
Record Current := {
  hash : string;       (* empty (or null): nothing is playing *)
  paused : bool;
  position : Z;
  cur_duration : Z;    (* the [duration] field of the status *)
}.

(** Values given to [JSON.stringify] for a request body.  A body is kept as
    the value that is serialised; [NaN] serialises as [null]. *)
Inductive json :=
| JNull
| JBool (b : bool)
| JNumber (n : Z)
| JString (s : string)
| JObject (fields : list (string * json)).

Definition json_of_number (n : option Z) : json :=
  match n with Some z => JNumber z | None => JNull end.

Inductive http_method := GET | POST | DELETE.

Record request := {
  method : http_method;
  path : string;
  body : option json;
}.

(** A parsed response body ([await res.json()]), by shape. *)
Inductive response :=
| RespMusics (data : gmap string Track)
| RespQueue (data : list string)
| RespCurrent (npData : Current)
| RespBool (b : bool)
| RespOther.

Inductive exn :=
| TypeError (msg : string).

Inductive outcome (A : Type) :=
| Normal (a : A)
| Thrown (e : exn).
Arguments Normal {A} a.
Arguments Thrown {A} e.

(** *** The document and the script's globals *)

(** A [div.music-item] of the catalog list; [mi_hash] is the [h] its click
    handler closes over. *)
Record music_item := {
  mi_className : string;
  mi_content : string;
  mi_hash : string;
}.

(** A [div.queue-item] of the queue list.  [qi_hash] and [qi_i] are the [h]
    and [i] its handlers close over; the Delete button is its only child. *)
Record queue_item := {
  qi_className : string;
  qi_draggable : bool;
  qi_dataset_index : string;
  qi_content : string;
  qi_button : string;
  qi_hash : string;
  qi_i : nat;
}.

(** [content] fields hold what the script assigns to [innerHTML]
    ([script.js]) or to [textContent] ([part_000]).  [dur_sec] and [dur_min]
    are the two names the formatter assigns without declaring them: in a
    classic script such an assignment creates or overwrites a property of
    the global object; [None] is "not yet defined". *)
Record page := {
  musics : gmap string Track;
  dur_sec : option string;
  dur_min : option string;
  music_list : list music_item;
  queue_list : list queue_item;
  now_playing : string;
  title : string;
}.

Definition set_musics (m : gmap string Track) (p : page) : page :=
  {| musics := m; dur_sec := dur_sec p; dur_min := dur_min p;
     music_list := music_list p; queue_list := queue_list p;
     now_playing := now_playing p; title := title p |}.
Definition set_dur_sec (s : string) (p : page) : page :=
  {| musics := musics p; dur_sec := Some s; dur_min := dur_min p;
     music_list := music_list p; queue_list := queue_list p;
     now_playing := now_playing p; title := title p |}.
Definition set_dur_min (s : string) (p : page) : page :=
  {| musics := musics p; dur_sec := dur_sec p; dur_min := Some s;
     music_list := music_list p; queue_list := queue_list p;
     now_playing := now_playing p; title := title p |}.
Definition set_music_list (l : list music_item) (p : page) : page :=
  {| musics := musics p; dur_sec := dur_sec p; dur_min := dur_min p;
     music_list := l; queue_list := queue_list p;
     now_playing := now_playing p; title := title p |}.
Definition set_queue_list (l : list queue_item) (p : page) : page :=
  {| musics := musics p; dur_sec := dur_sec p; dur_min := dur_min p;
     music_list := music_list p; queue_list := l;
     now_playing := now_playing p; title := title p |}.
Definition set_now_playing (s : string) (p : page) : page :=
  {| musics := musics p; dur_sec := dur_sec p; dur_min := dur_min p;
     music_list := music_list p; queue_list := queue_list p;
     now_playing := s; title := title p |}.
Definition set_title (s : string) (p : page) : page :=
  {| musics := musics p; dur_sec := dur_sec p; dur_min := dur_min p;
     music_list := music_list p; queue_list := queue_list p;
     now_playing := now_playing p; title := s |}.

(** *** Synchronous code: state and exceptions *)

Definition Sync (A : Type) : Type := page -> page * outcome A.

Definition ret {A} (a : A) : Sync A := fun p => (p, Normal a).
Definition throw {A} (e : exn) : Sync A := fun p => (p, Thrown e).
Definition bind {A B} (m : Sync A) (f : A -> Sync B) : Sync B :=
  fun p => match m p with
           | (p', Normal a) => f a p'
           | (p', Thrown e) => (p', Thrown e)
           end.
Definition get : Sync page := fun p => (p, Normal p).
Definition modify (f : page -> page) : Sync unit := fun p => (f p, Normal tt).

Global Instance Sync_ret : MRet Sync := @ret.
Global Instance Sync_bind : MBind Sync := fun A B f m => bind m f.

(** [obj[h].field]: reading a property of [musics[h]] throws a [TypeError]
    when [musics[h]] is [undefined].  The catalog is looked up by its own
    keys: under a key of [JS.inherited_key] that the catalog does not hold,
    JavaScript finds the inherited member and does not throw, which this
    lookup does not model; the properties below that rest on a missing
    identifier exclude those keys by hypothesis. *)
Definition undefined_property : exn :=
  TypeError "Cannot read properties of undefined".

Definition musics_at (h : string) : Sync Track :=
  fun p => match musics p !! h with
           | Some t => (p, Normal t)
           | None => (p, Thrown undefined_property)
           end.

(** [Array.prototype.forEach]: the callback runs on each element with its
    index, in order; an exception leaves the loop at once. *)
Fixpoint forEach_from {A} (i : nat) (f : A -> nat -> Sync unit) (l : list A) : Sync unit :=
  match l with
  | [] => ret tt
  | x :: l' => f x i ;; forEach_from (S i) f l'
  end.
Definition forEach {A} (f : A -> nat -> Sync unit) (l : list A) : Sync unit :=
  forEach_from 0 f l.

(** *** Asynchronous code: resumptions

    An [async] function runs synchronously up to its first [await].  The
    script only ever awaits a [fetch] (and the [json()] of its response),
    so a started function is either settled or waiting for a response with
    the rest of its body as continuation. *)
Inductive Async : Type :=
| Settled (o : outcome unit)
| Fetch (r : request) (k : response -> page -> page * Async).

Definition Task : Type := page -> page * Async.

Definition settle (m : Sync unit) : Task :=
  fun p => let (p', o) := m p in (p', Settled o).

(** Runs a started function to its end against a server that answers each
    request at once, and lists the requests it issued. *)
Fixpoint run_to_end (server : request -> response) (a : Async) (p : page)
  : page * outcome unit * list request :=
  match a with
  | Settled o => (p, o, [])
  | Fetch r k =>
      match k (server r) p with
      | (p', a') =>
          match run_to_end server a' p' with
          | (p'', o, rs) => (p'', o, r :: rs)
          end
      end
  end.

Definition mk_get (url : string) : request :=
  {| method := GET; path := url; body := None |}.
Definition mk_req (m : http_method) (url : string) (b : json) : request :=
  {| method := m; path := url; body := Some b |}.
Definition mk_post (url : string) : request :=
  {| method := POST; path := url; body := None |}.

(** A response of a shape the script does not expect ([null], or a value
    that is not a list where a list is read): the server's contract
    excludes it, and the model lets the function fail there, after what
    the function did before looking into the answer. *)
Definition unexpected_shape : exn := TypeError "unexpected response shape".

(** The function returns without reading the response ([await fetch(...)]
    with nothing after it, or a [fetch] whose promise is dropped). *)
Definition done_ : page -> page * Async := fun p => (p, Settled (Normal tt)).

(** The [DataTransfer] of a drag: data by format. *)
Abbreviation dataTransfer := (gmap string string).
Definition getData (format : string) (dt : dataTransfer) : string :=
  default EmptyString (dt !! format).

(** ** [src/static/script.js] *)

Module Static.

(** [fancytime(s)], lines 22-26.  Both assignments go to undeclared
    names, hence to globals. *)
Definition fancytime (s : Z) : Sync string :=
  let sec := JS.padStart 2 "0" (JS.Number_toString (JS.Math_round_rem s 60)) in
  let min := JS.padStart 2 "0" (JS.Number_toString (JS.Math_round_div s 40)) in
  modify (set_dur_sec sec) ;;
  modify (set_dur_min min) ;;
  mret (min ++ ":" ++ sec).

(** [fancyname(name, hash, duration)], lines 28-30. *)
Definition fancyname (name hash : string) (duration : Z) : Sync string :=
  t ← fancytime duration;
  mret (name ++ " <b>&#x2039;" ++ JS.slice0 8 hash
             ++ "&#x203a;</b>&#x3014;<u>" ++ t ++ "</u>&#x3015;").

(** The body of the [for] loop of [loadMusics], lines 38-42. *)
Definition music_row (entry : string * Track) (_ : nat) : Sync unit :=
  let '(h, music_info) := entry in
  label ← fancyname (name music_info) h (duration music_info);
  modify (fun p => set_music_list (music_list p ++
    [{| mi_className := "music-item"; mi_content := label; mi_hash := h |}]) p).

(** The callback of [data.forEach] in [refreshQueue], lines 53-79.  The
    row is built first and appended last, so a row whose label cannot be
    computed is never attached.  The [dragging] class toggled during a
    drag is styling only and is not modelled. *)
Definition queue_row (h : string) (i : nat) : Sync unit :=
  t_name ← musics_at h;
  t_duration ← musics_at h;
  label ← fancyname (name t_name) h (duration t_duration);
  modify (fun p => set_queue_list (queue_list p ++
    [{| qi_className := "queue-item"; qi_draggable := true;
        qi_dataset_index := JS.Number_toString (Z.of_nat i);
        qi_content := label; qi_button := "Delete";
        qi_hash := h; qi_i := i |}]) p).

(** "Update now playing", lines 88-91. *)
Definition update_now_playing (npData : Current) : Sync unit :=
  let pauseIcon := if paused npData then "&#x23F8;" else "&#x23F5;" in
  html ← (if JS.truthy (hash npData)
          then pos ← fancytime (position npData);
               t ← musics_at (hash npData);
               label ← fancyname (name t) (hash npData) (cur_duration npData);
               mret (pauseIcon ++ " " ++ pos ++ " | " ++ label)
          else mret "Nothing");
  modify (set_now_playing html) ;;
  text ← (if JS.truthy (hash npData)
          then t ← musics_at (hash npData); mret ("MusiSync - " ++ name t)
          else mret "MusiSync");
  modify (set_title text).

(** [refreshQueue()], lines 47-92.  The list is emptied (line 51) before
    the answer is looked into, so it is empty too when the answer is not a
    list. *)
Definition render_queue (data : list string) : Sync unit :=
  modify (set_queue_list []) ;;
  forEach queue_row data.

Definition refreshQueue : Task := fun p =>
  (p, Fetch (mk_get "/api/queue") (fun res p =>
    match res with
    | RespQueue data =>
        match render_queue data p with
        | (p, Thrown e) => (p, Settled (Thrown e))
        | (p, Normal _) =>
            (p, Fetch (mk_get "/api/current") (fun npRes =>
              match npRes with
              | RespCurrent npData => settle (update_now_playing npData)
              | _ => settle (throw unexpected_shape)
              end))
        end
    | _ => (set_queue_list [] p, Settled (Thrown unexpected_shape))
    end)).

(** [loadMusics()], lines 32-45.  [Object.entries(data)] is the list of
    the entries of the mapping; the order in which the catalog rows are
    listed plays no role below. *)
Definition render_musics (data : gmap string Track) : Sync unit :=
  modify (set_music_list []) ;;
  forEach music_row (map_to_list data) ;;
  modify (set_musics data).

Definition loadMusics : Task := fun p =>
  (p, Fetch (mk_get "/api/musics") (fun res =>
    match res with
    | RespMusics data => settle (render_musics data)
    | _ => settle (modify (set_music_list []) ;; throw unexpected_shape)
    end)).

(** [atp_get()], lines 1-6.  Its result is the parsed body, which no
    caller uses; [console.log] is not modelled. *)
Definition atp_get : Task := fun p =>
  (p, Fetch (mk_get "/api/autoplay_get") (fun _ => done_)).

(** The [change] listener of the autoplay toggle, lines 11-19: the
    promise of [fetch] is dropped. *)
Definition atp_change (checked : bool) : Task := fun p =>
  (p, Fetch (mk_req POST "/api/autoplay_set" (JBool checked)) (fun _ => done_)).

(** [div.onclick] of a catalog row, line 41. *)
Definition music_onclick (div : music_item) : Task := fun p =>
  (p, Fetch (mk_req POST "/api/queue" (JObject [("hash", JString (mi_hash div))]))
        (fun _ => refreshQueue)).

(** [btn.onclick] of a queue row, lines 61-65. *)
Definition delete_onclick (div : queue_item) : Task := fun p =>
  (p, Fetch (mk_req DELETE "/api/queue" (JObject [("hash", JString (qi_hash div))]))
        (fun _ => refreshQueue)).

(** The [dragstart] listener of a queue row, line 68:
    [setData('text/plain', i)] stores [i] as a string. *)
Definition dragstart (div : queue_item) (dt : dataTransfer) : dataTransfer :=
  <["text/plain" := JS.Number_toString (Z.of_nat (qi_i div))]> dt.

(** The [drop] listener of a queue row, lines 71-77. *)
Definition drop (div : queue_item) (dt : dataTransfer) : Task := fun p =>
  let from := JS.parseInt (getData "text/plain" dt) in
  let to := JS.parseInt (qi_dataset_index div) in
  (p, Fetch (mk_req POST "/api/queue/reorder"
               (JObject [("from", json_of_number from); ("to", json_of_number to)]))
        (fun _ => refreshQueue)).

(** [play()] and [pause()], lines 95-96. *)
Definition play : Task := fun p =>
  (p, Fetch (mk_post "/api/play") (fun _ => refreshQueue)).
Definition pause : Task := fun p =>
  (p, Fetch (mk_post "/api/pause") (fun _ => refreshQueue)).

End Static.

(** ** [src/unnamed/part_000], the older copy *)

Module Legacy.

(** Assigning to a [const] binding throws once the right-hand side has
    been evaluated. *)
Definition const_assignment : exn := TypeError "Assignment to constant variable".

(** [fancyname(name, hash, duration)], lines 21-25: the duration is
    formatted in place, again through undeclared names. *)
Definition fancyname (name hash : string) (duration : Z) : Sync string :=
  let sec := JS.padStart 2 "0" (JS.Number_toString (JS.Math_round_rem duration 60)) in
  let min := JS.padStart 2 "0" (JS.Number_toString (JS.Math_round_div duration 40)) in
  modify (set_dur_sec sec) ;;
  modify (set_dur_min min) ;;
  mret (name ++ " (" ++ JS.slice0 8 hash ++ ") [" ++ min ++ ":" ++ sec ++ "]").

Definition music_row (entry : string * Track) (_ : nat) : Sync unit :=
  let '(h, music_info) := entry in
  label ← fancyname (name music_info) h (duration music_info);
  modify (fun p => set_music_list (music_list p ++
    [{| mi_className := "music-item"; mi_content := label; mi_hash := h |}]) p).

Definition queue_row (h : string) (i : nat) : Sync unit :=
  t_name ← musics_at h;
  t_duration ← musics_at h;
  label ← fancyname (name t_name) h (duration t_duration);
  modify (fun p => set_queue_list (queue_list p ++
    [{| qi_className := "queue-item"; qi_draggable := true;
        qi_dataset_index := JS.Number_toString (Z.of_nat i);
        qi_content := label; qi_button := "Delete";
        qi_hash := h; qi_i := i |}]) p).

(** Lines 83-87.  The identifier is passed where [fancyname] expects the
    name and the name where it expects the identifier.  Line 87 parses as
    [title = (("MusiSync - " + npData.hash) ? musics[npData.hash].name
    : "Nothing")], and [title] is a [const]. *)
Definition update_now_playing (npData : Current) : Sync unit :=
  text ← (if JS.truthy (hash npData)
          then t_name ← musics_at (hash npData);
               t_duration ← musics_at (hash npData);
               fancyname (hash npData) (name t_name) (duration t_duration)
          else mret "Nothing");
  modify (set_now_playing text) ;;
  _ ← (if JS.truthy ("MusiSync - " ++ hash npData)
       then t ← musics_at (hash npData); mret (name t)
       else mret "Nothing");
  throw const_assignment.

Definition render_queue (data : list string) : Sync unit :=
  modify (set_queue_list []) ;;
  forEach queue_row data.

Definition refreshQueue : Task := fun p =>
  (p, Fetch (mk_get "/api/queue") (fun res p =>
    match res with
    | RespQueue data =>
        match render_queue data p with
        | (p, Thrown e) => (p, Settled (Thrown e))
        | (p, Normal _) =>
            (p, Fetch (mk_get "/api/current") (fun npRes =>
              match npRes with
              | RespCurrent npData => settle (update_now_playing npData)
              | _ => settle (throw unexpected_shape)
              end))
        end
    | _ => (set_queue_list [] p, Settled (Thrown unexpected_shape))
    end)).

Definition render_musics (data : gmap string Track) : Sync unit :=
  modify (set_music_list []) ;;
  forEach music_row (map_to_list data) ;;
  modify (set_musics data).

Definition loadMusics : Task := fun p =>
  (p, Fetch (mk_get "/api/musics") (fun res =>
    match res with
    | RespMusics data => settle (render_musics data)
    | _ => settle (modify (set_music_list []) ;; throw unexpected_shape)
    end)).

Definition atp_get : Task := fun p =>
  (p, Fetch (mk_get "/api/autoplay_get") (fun _ => done_)).

Definition atp_change (checked : bool) : Task := fun p =>
  (p, Fetch (mk_req POST "/api/autoplay_set" (JBool checked)) (fun _ => done_)).

Definition music_onclick (div : music_item) : Task := fun p =>
  (p, Fetch (mk_req POST "/api/queue" (JObject [("hash", JString (mi_hash div))]))
        (fun _ => refreshQueue)).

Definition delete_onclick (div : queue_item) : Task := fun p =>
  (p, Fetch (mk_req DELETE "/api/queue" (JObject [("hash", JString (qi_hash div))]))
        (fun _ => refreshQueue)).

Definition dragstart (div : queue_item) (dt : dataTransfer) : dataTransfer :=
  <["text/plain" := JS.Number_toString (Z.of_nat (qi_i div))]> dt.

Definition drop (div : queue_item) (dt : dataTransfer) : Task := fun p =>
  let from := JS.parseInt (getData "text/plain" dt) in
  let to := JS.parseInt (qi_dataset_index div) in
  (p, Fetch (mk_req POST "/api/queue/reorder"
               (JObject [("from", json_of_number from); ("to", json_of_number to)]))
        (fun _ => refreshQueue)).

Definition play : Task := fun p =>
  (p, Fetch (mk_post "/api/play") (fun _ => refreshQueue)).
Definition pause : Task := fun p =>
  (p, Fetch (mk_post "/api/pause") (fun _ => refreshQueue)).

End Legacy.

(** ** The event loop *)

(** What a timer callback of [script.js] calls (lines 101-106). *)
Inductive job := Job_loadMusics | Job_refreshQueue.

Global Instance job_eq_dec : EqDecision job.
Proof. solve_decision. Defined.

(** A registered timer.  [setTimeout] registers a one-shot timer
    ([period = None]); [setInterval] would register a periodic one. *)
Record timer := {
  due : N;
  period : option N;
  tag : job;
  callback : Task;
}.

(** The handlers a loaded script has installed, and the functions the
    page's buttons call. *)
Record script := {
  on_music_click : music_item -> Task;
  on_delete_click : queue_item -> Task;
  on_dragstart : queue_item -> dataTransfer -> dataTransfer;
  on_drop : queue_item -> dataTransfer -> Task;
  on_atp_change : bool -> Task;
  fn_play : Task;
  fn_pause : Task;
}.

Record world := {
  doc : page;
  now : N;                                   (* milliseconds since load *)
  pending : list (request * (response -> page -> page * Async));
  timers : list timer;
  drag : dataTransfer;                       (* data of the drag under way *)
  sent : list request;                       (* every request issued, oldest first *)
  fired : list job;                          (* every timer callback run, oldest first *)
  unhandled : list exn;                      (* unhandled promise rejections *)
}.

Definition set_doc (p : page) (w : world) : world :=
  {| doc := p; now := now w; pending := pending w; timers := timers w;
     drag := drag w; sent := sent w; fired := fired w; unhandled := unhandled w |}.
Definition set_now (t : N) (w : world) : world :=
  {| doc := doc w; now := t; pending := pending w; timers := timers w;
     drag := drag w; sent := sent w; fired := fired w; unhandled := unhandled w |}.
Definition set_pending (l : list (request * (response -> page -> page * Async)))
    (w : world) : world :=
  {| doc := doc w; now := now w; pending := l; timers := timers w;
     drag := drag w; sent := sent w; fired := fired w; unhandled := unhandled w |}.
Definition set_timers (l : list timer) (w : world) : world :=
  {| doc := doc w; now := now w; pending := pending w; timers := l;
     drag := drag w; sent := sent w; fired := fired w; unhandled := unhandled w |}.
Definition set_drag (dt : dataTransfer) (w : world) : world :=
  {| doc := doc w; now := now w; pending := pending w; timers := timers w;
     drag := dt; sent := sent w; fired := fired w; unhandled := unhandled w |}.
Definition log_sent (r : request) (w : world) : world :=
  {| doc := doc w; now := now w; pending := pending w; timers := timers w;
     drag := drag w; sent := sent w ++ [r]; fired := fired w; unhandled := unhandled w |}.
Definition log_fired (j : job) (w : world) : world :=
  {| doc := doc w; now := now w; pending := pending w; timers := timers w;
     drag := drag w; sent := sent w; fired := fired w ++ [j]; unhandled := unhandled w |}.
Definition log_unhandled (e : exn) (w : world) : world :=
  {| doc := doc w; now := now w; pending := pending w; timers := timers w;
     drag := drag w; sent := sent w; fired := fired w; unhandled := unhandled w ++ [e] |}.

(** A synchronous segment has ended: the function settled, or it waits for
    a response. *)
Definition resume (pa : page * Async) (w : world) : world :=
  match pa with
  | (p, Settled (Normal _)) => set_doc p w
  | (p, Settled (Thrown e)) => log_unhandled e (set_doc p w)
  | (p, Fetch r k) => log_sent r (set_pending (pending w ++ [(r, k)]) (set_doc p w))
  end.

(** Calling an [async] function without awaiting it. *)
Definition spawn (t : Task) (w : world) : world := resume (t (doc w)) w.

(** [setTimeout(() => { f(); }, ms)]. *)
Definition setTimeout (j : job) (f : Task) (ms : N) (w : world) : world :=
  set_timers (timers w ++ [{| due := now w + ms; period := None; tag := j; callback := f |}]) w.

Definition failed_to_fetch : exn := TypeError "Failed to fetch".

(** A timer has run: a one-shot timer is gone, a periodic one is due again
    one period later. *)
Definition rearm (n : nat) (t : timer) (l : list timer) : list timer :=
  match period t with
  | None => delete n l
  | Some d => <[n := {| due := due t + d; period := period t;
                        tag := tag t; callback := callback t |}]> l
  end.

Inductive event :=
| Ev_response (n : nat) (res : response)  (* the n-th pending request is answered *)
| Ev_failure (n : nat)                    (* the n-th pending request fails *)
| Ev_time (ms : N)                        (* time passes *)
| Ev_timer (n : nat)                      (* the n-th timer, being due, runs *)
| Ev_click_music (n : nat)                (* click on the n-th catalog row *)
| Ev_click_delete (n : nat)               (* click on Delete of the n-th queue row *)
| Ev_dragstart (n : nat)                  (* a drag starts on the n-th queue row *)
| Ev_drop (n : nat)                       (* the drag is dropped on the n-th queue row *)
| Ev_toggle (checked : bool)              (* the autoplay toggle changes *)
| Ev_play
| Ev_pause.

(** One turn of the event loop.  An event that cannot happen in [w] (no
    such row, request or timer, or a timer not yet due) leaves [w] as it
    is.  Of a drag, the data it carries is followed; the class [dragging]
    that [dragstart] puts on the row and [dragend] takes away is not part
    of the page record, and there is no event for [dragend]. *)
Definition step (sc : script) (w : world) (e : event) : world :=
  match e with
  | Ev_response n res =>
      match pending w !! n with
      | Some (_, k) => resume (k res (doc w)) (set_pending (delete n (pending w)) w)
      | None => w
      end
  | Ev_failure n =>
      match pending w !! n with
      | Some _ => log_unhandled failed_to_fetch (set_pending (delete n (pending w)) w)
      | None => w
      end
  | Ev_time ms => set_now (now w + ms) w
  | Ev_timer n =>
      match timers w !! n with
      | Some t =>
          if (due t <=? now w)%N
          then spawn (callback t) (log_fired (tag t) (set_timers (rearm n t (timers w)) w))
          else w
      | None => w
      end
  | Ev_click_music n =>
      match music_list (doc w) !! n with
      | Some div => spawn (on_music_click sc div) w
      | None => w
      end
  | Ev_click_delete n =>
      match queue_list (doc w) !! n with
      | Some div => spawn (on_delete_click sc div) w
      | None => w
      end
  | Ev_dragstart n =>
      match queue_list (doc w) !! n with
      | Some div => set_drag (on_dragstart sc div ∅) w
      | None => w
      end
  | Ev_drop n =>
      match queue_list (doc w) !! n with
      | Some div => spawn (on_drop sc div (drag w)) w
      | None => w
      end
  | Ev_toggle checked => spawn (on_atp_change sc checked) w
  | Ev_play => spawn (fn_play sc) w
  | Ev_pause => spawn (fn_pause sc) w
  end.

Definition steps (sc : script) (w : world) (evs : list event) : world :=
  foldl (step sc) w evs.

(** The page before any script has run: [let musics = {}], no formatter
    global yet, empty lists, and the text the markup gives to the
    now-playing line and to the title. *)
Definition initial_page (np0 title0 : string) : page :=
  {| musics := ∅; dur_sec := None; dur_min := None; music_list := [];
     queue_list := []; now_playing := np0; title := title0 |}.

Definition boot (p : page) : world :=
  {| doc := p; now := 0; pending := []; timers := []; drag := ∅;
     sent := []; fired := []; unhandled := [] |}.

Module StaticPage.

Definition handlers : script :=
  {| on_music_click := Static.music_onclick;
     on_delete_click := Static.delete_onclick;
     on_dragstart := Static.dragstart;
     on_drop := Static.drop;
     on_atp_change := Static.atp_change;
     fn_play := Static.play;
     fn_pause := Static.pause |}.

(** The top level of [script.js]: lines 98-106.  [atp_get] is defined but
    not called. *)
Definition main (w : world) : world :=
  let w := spawn Static.loadMusics w in
  let w := spawn Static.refreshQueue w in
  let w := setTimeout Job_loadMusics Static.loadMusics 5000 w in
  setTimeout Job_refreshQueue Static.refreshQueue 1000 w.

Definition loaded (p : page) : world := main (boot p).

End StaticPage.

Module LegacyPage.

Definition handlers : script :=
  {| on_music_click := Legacy.music_onclick;
     on_delete_click := Legacy.delete_onclick;
     on_dragstart := Legacy.dragstart;
     on_drop := Legacy.drop;
     on_atp_change := Legacy.atp_change;
     fn_play := Legacy.play;
     fn_pause := Legacy.pause |}.

(** The top level of [part_000]: line 9, then lines 94-95. *)
Definition main (w : world) : world :=
  let w := spawn Legacy.atp_get w in
  let w := spawn Legacy.loadMusics w in
  spawn Legacy.refreshQueue w.

Definition loaded (p : page) : world := main (boot p).

End LegacyPage.

(** ** The formatter as the specification words it *)

Module Spec.

(** [pad2(floor(d/60)) + ":" + pad2(round(d mod 60))]; [d mod 60] is an
    integer when [d] is. *)
Definition pad2 (n : Z) : string := JS.padStart 2 "0" (JS.Number_toString n).

Definition duration_string (d : Z) : string :=
  pad2 (d / 60) ++ ":" ++ pad2 (d mod 60).

End Spec.

(** ** Definitions the statements below are written with *)

(** What [fancytime] computes, and what it leaves in the page. *)
Definition seconds_field (s : Z) : string :=
  JS.padStart 2 "0" (JS.Number_toString (JS.Math_round_rem s 60)).
Definition minutes_field (s : Z) : string :=
  JS.padStart 2 "0" (JS.Number_toString (JS.Math_round_div s 40)).

(** The label and the row [script.js] builds for an identifier found in
    the catalog. *)
Definition static_label (n h : string) (d : Z) : string :=
  n ++ " <b>&#x2039;" ++ JS.slice0 8 h ++ "&#x203a;</b>&#x3014;<u>"
    ++ (minutes_field d ++ ":" ++ seconds_field d) ++ "</u>&#x3015;".

Definition static_row (h : string) (i : nat) (t : Track) : queue_item :=
  {| qi_className := "queue-item"; qi_draggable := true;
     qi_dataset_index := JS.Number_toString (Z.of_nat i);
     qi_content := static_label (name t) h (duration t);
     qi_button := "Delete"; qi_hash := h; qi_i := i |}.

(** Two pages that differ in the formatter's globals and the queue list
    only. *)
Definition same_but_queue (p p' : page) : Prop :=
  musics p' = musics p /\ music_list p' = music_list p /\
  now_playing p' = now_playing p /\ title p' = title p.

(** The play or pause glyph of the now-playing line. *)
Definition pause_icon (npData : Current) : string :=
  if paused npData then "&#x23F8;" else "&#x23F5;".

(** A small catalog and the page holding it, for the examples. *)
Definition demo_catalog : gmap string Track :=
  {[ "a" := {| name := "Alpha"; duration := 125 |};
     "b" := {| name := "Beta"; duration := 59 |};
     "c" := {| name := "Gamma"; duration := 0 |} ]}.

Definition demo_page : page :=
  set_musics demo_catalog (initial_page "Nothing" "MusiSync").

Definition reorder_request (from to : Z) : request :=
  mk_req POST "/api/queue/reorder" (JObject [("from", JNumber from); ("to", JNumber to)]).

Definition delete_request (h : string) : request :=
  mk_req DELETE "/api/queue" (JObject [("hash", JString h)]).

(** Every request a started function may still issue satisfies [P]. *)
Inductive issues_only (P : request -> Prop) : Async -> Prop :=
| issues_settled (o : outcome unit) : issues_only P (Settled o)
| issues_fetch (r : request) (k : response -> page -> page * Async) :
    P r -> (forall res p, issues_only P (k res p).2) -> issues_only P (Fetch r k).

Definition task_only (P : request -> Prop) (t : Task) : Prop :=
  forall p, issues_only P (t p).2.

Record script_only (P : request -> Prop) (sc : script) : Prop := {
  only_music_click : forall div, task_only P (on_music_click sc div);
  only_delete_click : forall div, task_only P (on_delete_click sc div);
  only_drop : forall div dt, task_only P (on_drop sc div dt);
  only_atp_change : forall b, task_only P (on_atp_change sc b);
  only_play : task_only P (fn_play sc);
  only_pause : task_only P (fn_pause sc);
}.

Definition world_only (P : request -> Prop) (w : world) : Prop :=
  Forall (fun rk : request * (response -> page -> page * Async) =>
            forall res p, issues_only P (rk.2 res p).2) (pending w) /\
  Forall (fun t => task_only P (callback t)) (timers w).

(** Any request but the read of the autoplay flag. *)
Definition not_autoplay_get (r : request) : Prop := path r <> "/api/autoplay_get".

(** How many times a timer has called [j] so far. *)
Definition timer_runs (j : job) (w : world) : nat :=
  length (filter (fun x => x = j) (fired w)).

(** Every timer of [script.js] is one-shot, and each of the two jobs is
    either still registered or has run, never both and never twice. *)
Definition timers_inv (w : world) : Prop :=
  Forall (fun t => period t = None) (timers w) /\
  (fired w ++ (tag <$> timers w))%list ≡ₚ [Job_loadMusics; Job_refreshQueue].

(** ** Definitions for the further properties *)

(** The catalog row [script.js] builds for an entry of the catalog. *)
Definition static_music_item (entry : string * Track) : music_item :=
  {| mi_className := "music-item";
     mi_content := static_label (name entry.2) entry.1 (duration entry.2);
     mi_hash := entry.1 |}.

Definition enqueue_request (h : string) : request :=
  mk_req POST "/api/queue" (JObject [("hash", JString h)]).

(** What the formatter's globals hold after labels were made for the
    tracks up to [last]: the fields of the last one, or what they held
    before when no label was made. *)
Definition dur_sec_after (last : option Track) (before : option string) : option string :=
  match last with
  | Some t => Some (seconds_field (duration t))
  | None => before
  end.
Definition dur_min_after (last : option Track) (before : option string) : option string :=
  match last with
  | Some t => Some (minutes_field (duration t))
  | None => before
  end.

(** The user actions that change the server's state and are followed by a
    refresh. *)
Definition is_mutation (e : event) : bool :=
  match e with
  | Ev_click_music _ | Ev_click_delete _ | Ev_drop _ | Ev_play | Ev_pause => true
  | _ => false
  end.

(** Whether a user action finds its row in [w]; play and pause need
    none. *)
Definition mutation_enabled (w : world) (e : event) : bool :=
  match e with
  | Ev_click_music n => bool_decide (is_Some (music_list (doc w) !! n))
  | Ev_click_delete n | Ev_drop n => bool_decide (is_Some (queue_list (doc w) !! n))
  | Ev_play | Ev_pause => true
  | _ => false
  end.

(** The request of a user action: enqueue and delete carry the identifier
    of the row acted on, reorder carries two values that are numbers or
    [null], play and pause carry nothing. *)
Definition mutation_sends (w : world) (e : event) (r : request) : Prop :=
  match e with
  | Ev_click_music n =>
      exists div, music_list (doc w) !! n = Some div /\ r = enqueue_request (mi_hash div)
  | Ev_click_delete n =>
      exists div, queue_list (doc w) !! n = Some div /\ r = delete_request (qi_hash div)
  | Ev_drop n =>
      exists from to,
        r = mk_req POST "/api/queue/reorder"
              (JObject [("from", json_of_number from); ("to", json_of_number to)])
  | Ev_play => r = mk_post "/api/play"
  | Ev_pause => r = mk_post "/api/pause"
  | _ => False
  end.



(** The delay each timer of [script.js] is registered with, in
    milliseconds (lines 101-106). *)
Definition job_delay (j : job) : N :=
  match j with Job_loadMusics => 5000 | Job_refreshQueue => 1000 end%N.

(** The timers of [script.js]: one-shot, due at their delay. *)
Definition timers_due (w : world) : Prop :=
  Forall (fun t => period t = None /\ due t = job_delay (tag t)) (timers w) /\
  Forall (fun j => (job_delay j <= now w)%N) (fired w).


(** The rest of [refreshQueue] once the queue has been read: the
    continuation of its first [await]. *)
Definition queue_answer : response -> page -> page * Async :=
  match (Static.refreshQueue (initial_page EmptyString EmptyString)).2 with
  | Fetch _ k => k
  | Settled _ => fun _ => done_
  end.


(** * Properties *)

(** ** Basic facts about the monad and the page *)

(** Sanity checks of the built-ins. *)
Example toString_5 : JS.Number_toString 5 = "5".
Proof. reflexivity. Qed.
Example pad_5 : JS.padStart 2 "0" "5" = "05".
Proof. reflexivity. Qed.
Example parse_12 : JS.parseInt " 12px" = Some 12.
Proof. reflexivity. Qed.
Example parse_neg : JS.parseInt "-7" = Some (-7).
Proof. reflexivity. Qed.
Example parse_nan : JS.parseInt "abc" = None.
Proof. reflexivity. Qed.
Example round_div :
  JS.Math_round_div 125 40 = 3 /\ JS.Math_round_div 20 40 = 1 /\
  JS.Math_round_div 19 40 = 0 /\ JS.Math_round_div (-20) 40 = 0 /\
  JS.Math_round_div (-21) 40 = -1.
Proof. repeat split. Qed.

Lemma bind_normal {A B} (m : Sync A) (f : A -> Sync B) p p' a :
  m p = (p', Normal a) -> (m ≫= f) p = f a p'.
Proof. intros H. unfold mbind, Sync_bind, bind. now rewrite H. Qed.

Lemma bind_thrown {A B} (m : Sync A) (f : A -> Sync B) p p' e :
  m p = (p', Thrown e) -> (m ≫= f) p = (p', Thrown e).
Proof. intros H. unfold mbind, Sync_bind, bind. now rewrite H. Qed.

Lemma string_app_inv_head (s t u : string) : s ++ t = s ++ u -> t = u.
Proof. induction s as [|c s IH]; simpl; [auto|]. intros [= H]. auto. Qed.

Lemma string_app_assoc (s t u : string) : (s ++ t) ++ u = s ++ t ++ u.
Proof.
  induction s as [|c s IH]; [reflexivity|].
  change (String c ((s ++ t) ++ u) = String c (s ++ t ++ u)). now rewrite IH.
Qed.

(** ** The formatter *)

Section Formatter.

Variable p : page.

Lemma fancytime_eq (s : Z) :
  Static.fancytime s p =
    (set_dur_min (minutes_field s) (set_dur_sec (seconds_field s) p),
     Normal (minutes_field s ++ ":" ++ seconds_field s)).
Proof. reflexivity. Qed.

Lemma fancyname_eq (n h : string) (d : Z) :
  Static.fancyname n h d p =
    (set_dur_min (minutes_field d) (set_dur_sec (seconds_field d) p),
     Normal (n ++ " <b>&#x2039;" ++ JS.slice0 8 h ++ "&#x203a;</b>&#x3014;<u>"
               ++ (minutes_field d ++ ":" ++ seconds_field d) ++ "</u>&#x3015;")).
Proof. reflexivity. Qed.

Lemma legacy_fancyname_eq (n h : string) (d : Z) :
  Legacy.fancyname n h d p =
    (set_dur_min (minutes_field d) (set_dur_sec (seconds_field d) p),
     Normal (n ++ " (" ++ JS.slice0 8 h ++ ") ["
               ++ minutes_field d ++ ":" ++ seconds_field d ++ "]")).
Proof. reflexivity. Qed.

(** The result of the formatter depends on its arguments only. *)
Lemma fancytime_result_stateless (s : Z) (q : page) :
  (Static.fancytime s p).2 = (Static.fancytime s q).2.
Proof. reflexivity. Qed.

Lemma fancyname_result_stateless (n h : string) (d : Z) (q : page) :
  (Static.fancyname n h d p).2 = (Static.fancyname n h d q).2.
Proof. reflexivity. Qed.

(** It touches nothing but the two globals. *)
Lemma fancytime_frame (s : Z) :
  let p' := (Static.fancytime s p).1 in
  musics p' = musics p /\ music_list p' = music_list p /\
  queue_list p' = queue_list p /\ now_playing p' = now_playing p /\
  title p' = title p.
Proof. repeat split. Qed.

End Formatter.

(** The minutes the script shows are those of the specification only
    below twenty seconds. *)
Lemma minutes_agree_iff (d : Z) :
  0 <= d -> (JS.Math_round_div d 40 = d / 60 <-> d < 20).
Proof.
  intros Hd. unfold JS.Math_round_div.
  Z.to_euclidean_division_equations. lia.
Qed.

(** *** Where the script's duration string is the specification's *)

Lemma string_length_app (s t : string) :
  String.length (s ++ t) = (String.length s + String.length t)%nat.
Proof.
  induction s as [|c s IH]; [reflexivity|].
  change (S (String.length (s ++ t)) = S (String.length s + String.length t)).
  now rewrite IH.
Qed.

Lemma string_app_inv_tail (s1 s2 t : string) : s1 ++ t = s2 ++ t -> s1 = s2.
Proof.
  revert s2. induction s1 as [|c s1 IH]; intros [|c' s2] H.
  - reflexivity.
  - apply (f_equal String.length) in H.
    change (String.length t = S (String.length (s2 ++ t))) in H.
    rewrite string_length_app in H. lia.
  - apply (f_equal String.length) in H.
    change (S (String.length (s1 ++ t)) = String.length t) in H.
    rewrite string_length_app in H. lia.
  - change (String c (s1 ++ t) = String c' (s2 ++ t)) in H.
    injection H as -> H. f_equal. now apply IH.
Qed.

Lemma pretty_N_go_length (x : N) :
  forall s, (String.length s <= String.length (pretty_N_go x s))%nat.
Proof.
  induction (N.lt_wf_0 x) as [x _ IH]. intros s.
  destruct (decide (0 < x)%N) as [Hx|Hx].
  - rewrite pretty_N_go_step by exact Hx.
    etransitivity; [|apply IH, N.div_lt; lia]. cbn. lia.
  - replace x with 0%N by lia. now rewrite pretty_N_go_0.
Qed.

(** The first digit of a positive number is not zero. *)
Lemma pretty_N_go_leading (x : N) :
  forall s, (0 < x)%N ->
    exists d s', (0 < d < 10)%N /\ pretty_N_go x s = String (pretty_N_char d) s'.
Proof.
  induction (N.lt_wf_0 x) as [x _ IH]. intros s Hx.
  rewrite pretty_N_go_step by exact Hx.
  destruct (decide (x < 10)%N) as [Hlt|Hge].
  - rewrite N.div_small by exact Hlt. rewrite pretty_N_go_0.
    exists (x mod 10)%N, s. split; [|reflexivity].
    rewrite N.mod_small by exact Hlt. lia.
  - apply IH.
    + apply N.div_lt; lia.
    + apply N.div_str_pos. lia.
Qed.

(** Below ten a number is padded with one zero. *)
Lemma pad2_small (n : Z) :
  0 <= n < 10 ->
  Spec.pad2 n = String "0" (String (pretty_N_char (Z.to_N n)) EmptyString).
Proof.
  intros Hn. destruct n as [|x|x]; [reflexivity| |lia].
  do 4 (try destruct x as [x|x|]); try lia; reflexivity.
Qed.

(** From ten on it is written as it is, and starts with a digit that is
    not zero. *)
Lemma pad2_large (n : Z) :
  10 <= n ->
  exists d s', (0 < d < 10)%N /\ Spec.pad2 n = String (pretty_N_char d) s'.
Proof.
  intros Hn. destruct n as [|x|x]; try lia.
  unfold Spec.pad2, JS.Number_toString, JS.padStart.
  change (pretty (Zpos x)) with (pretty (Npos x)).
  unfold pretty, pretty_N. rewrite decide_False by discriminate.
  assert (Hlen : (2 <= String.length (pretty_N_go (Npos x) EmptyString))%nat).
  { rewrite pretty_N_go_step by lia.
    rewrite pretty_N_go_step by (apply N.div_str_pos; lia).
    etransitivity; [|apply pretty_N_go_length]. cbn. lia. }
  replace (2 - String.length (pretty_N_go (Npos x) EmptyString))%nat with 0%nat by lia.
  apply pretty_N_go_leading. lia.
Qed.

Lemma pad2_inj (a b : Z) : 0 <= a -> 0 <= b -> Spec.pad2 a = Spec.pad2 b -> a = b.
Proof.
  intros Ha Hb H.
  destruct (decide (a < 10)) as [Ha10|Ha10]; destruct (decide (b < 10)) as [Hb10|Hb10].
  - rewrite !pad2_small in H by lia. injection H as H.
    apply pretty_N_char_inj in H; lia.
  - rewrite pad2_small in H by lia.
    destruct (pad2_large b) as (d & s' & Hd & Hpad); [lia|].
    rewrite Hpad in H. injection H as H _.
    apply (pretty_N_char_inj 0 d) in H; lia.
  - rewrite (pad2_small b) in H by lia.
    destruct (pad2_large a) as (d & s' & Hd & Hpad); [lia|].
    rewrite Hpad in H. injection H as H _.
    apply (pretty_N_char_inj d 0) in H; lia.
  - assert (Hid : forall n, 10 <= n -> Spec.pad2 n = pretty n).
    { intros n Hn. destruct n as [|x|x]; try lia.
      unfold Spec.pad2, JS.Number_toString, JS.padStart.
      assert (Hlen : (2 <= String.length (pretty (Zpos x)))%nat).
      { change (pretty (Zpos x)) with (pretty (Npos x)).
        unfold pretty, pretty_N. rewrite decide_False by discriminate.
        rewrite pretty_N_go_step by lia.
        rewrite pretty_N_go_step by (apply N.div_str_pos; lia).
        etransitivity; [|apply pretty_N_go_length]. cbn. lia. }
      replace (2 - String.length (pretty (Zpos x)))%nat with 0%nat by lia.
      reflexivity. }
    rewrite !Hid in H by lia. now apply (inj pretty).
Qed.

(** For a duration of whole seconds the script shows the string of the
    specification exactly when the duration is below twenty seconds. *)
Lemma fancytime_meets_spec_iff (d : Z) (p : page) :
  0 <= d ->
  ((Static.fancytime d p).2 = Normal (Spec.duration_string d) <-> d < 20).
Proof.
  intros Hd. rewrite fancytime_eq. cbn [snd].
  unfold Spec.duration_string, minutes_field, seconds_field, JS.Math_round_rem.
  rewrite Z.rem_mod_nonneg by lia.
  fold (Spec.pad2 (JS.Math_round_div d 40)). fold (Spec.pad2 (d mod 60)).
  split.
  - intros [= H]. rewrite <- !string_app_assoc in H.
    apply string_app_inv_tail, string_app_inv_tail in H.
    apply pad2_inj in H.
    + now apply minutes_agree_iff.
    + unfold JS.Math_round_div. apply Z.div_pos; lia.
    + apply Z.div_pos; lia.
  - intros Hlt. apply (minutes_agree_iff d Hd) in Hlt. now rewrite Hlt.
Qed.

(** C1, at 125 seconds: [fancytime] of [script.js] yields 03:05, since its
    minutes are [Math.round(125/40)], where the specification's formula
    yields 02:05; the label of [part_000] carries the same 03:05. *)
Theorem fancytime_125_divides_by_40 (p : page) :
  (Static.fancytime 125 p).2 = Normal "03:05" /\
  (Legacy.fancyname "Song" "h1" 125 p).2 = Normal "Song (h1) [03:05]" /\
  Spec.duration_string 125 = "02:05".
Proof. repeat split. Qed.

Example fancytime_59 (p : page) :
  (Static.fancytime 59 p).2 = Normal "01:59" /\ Spec.duration_string 59 = "00:59".
Proof. split; reflexivity. Qed.

Example fancytime_0 (p : page) :
  (Static.fancytime 0 p).2 = Normal "00:00" /\ Spec.duration_string 0 = "00:00".
Proof. split; reflexivity. Qed.

(** C7, at 125 seconds on a freshly loaded page: the call defines the two
    globals [dur_sec] and [dur_min], which did not exist before, so the
    page it leaves is not the page it found; and on any page it overwrites
    both with the fields it computed. *)
Theorem fancytime_writes_globals :
  let p0 := initial_page "Nothing" "MusiSync" in
  dur_sec p0 = None /\ dur_min p0 = None /\
  dur_sec (Static.fancytime 125 p0).1 = Some "05" /\
  dur_min (Static.fancytime 125 p0).1 = Some "03" /\
  (Static.fancytime 125 p0).1 <> p0 /\
  forall (s : Z) (p : page),
    dur_sec (Static.fancytime s p).1 = Some (seconds_field s) /\
    dur_min (Static.fancytime s p).1 = Some (minutes_field s).
Proof.
  cbv zeta. repeat split.
  intros H. apply (f_equal dur_sec) in H. discriminate H.
Qed.

(** C10, counterexample: for the track Song with identifier h1 and 185
    seconds the two copies give different labels. *)
Lemma fancyname_copies_differ_at_song :
  (Static.fancyname "Song" "h1" 185 (initial_page "Nothing" "MusiSync")).2
  <> (Legacy.fancyname "Song" "h1" 185 (initial_page "Nothing" "MusiSync")).2.
Proof. intros H. vm_compute in H. discriminate H. Qed.

(** C10, amended: both copies build the label from the same name, the same
    eight-character prefix of the identifier and the same duration string,
    and leave the same page behind; [script.js] wraps the parts in markup,
    [part_000] in brackets, so the two labels are never equal. *)
Theorem fancyname_copies_same_parts (n h : string) (d : Z) (p : page) :
  let fp := JS.slice0 8 h in
  let t := minutes_field d ++ ":" ++ seconds_field d in
  (Static.fancyname n h d p).2
    = Normal (n ++ " <b>&#x2039;" ++ fp ++ "&#x203a;</b>&#x3014;<u>" ++ t ++ "</u>&#x3015;") /\
  (Legacy.fancyname n h d p).2 = Normal (n ++ " (" ++ fp ++ ") [" ++ t ++ "]") /\
  (Static.fancytime d p).2 = Normal t /\
  (Static.fancyname n h d p).1 = (Legacy.fancyname n h d p).1 /\
  (Static.fancyname n h d p).2 <> (Legacy.fancyname n h d p).2.
Proof.
  cbv zeta. rewrite fancyname_eq, legacy_fancyname_eq, fancytime_eq. simpl.
  split; [reflexivity|]. split; [now rewrite !string_app_assoc|].
  split; [reflexivity|]. split; [reflexivity|].
  intros [= H]. apply string_app_inv_head in H. discriminate H.
Qed.

(** ** Rendering the queue *)

Lemma same_but_queue_refl p : same_but_queue p p.
Proof. repeat split. Qed.

Lemma same_but_queue_trans p q r :
  same_but_queue p q -> same_but_queue q r -> same_but_queue p r.
Proof. unfold same_but_queue. intuition congruence. Qed.

Lemma queue_row_found (h : string) (i : nat) (p : page) (t : Track) :
  musics p !! h = Some t ->
  Static.queue_row h i p =
    (set_queue_list (queue_list p ++ [static_row h i t])
       (set_dur_min (minutes_field (duration t))
          (set_dur_sec (seconds_field (duration t)) p)),
     Normal tt).
Proof.
  intros Hm. unfold Static.queue_row.
  assert (Hat : musics_at h p = (p, Normal t)) by (unfold musics_at; now rewrite Hm).
  rewrite (bind_normal _ _ _ _ _ Hat), (bind_normal _ _ _ _ _ Hat).
  rewrite (bind_normal _ _ _ _ _ (fancyname_eq p (name t) h (duration t))).
  reflexivity.
Qed.

Lemma queue_row_missing (h : string) (i : nat) (p : page) :
  musics p !! h = None ->
  Static.queue_row h i p = (p, Thrown undefined_property).
Proof.
  intros Hm. unfold Static.queue_row.
  apply bind_thrown. unfold musics_at. now rewrite Hm.
Qed.

(** A completed loop has appended one row per identifier, in order, each
    carrying its identifier and its position. *)
Lemma forEach_rows_inv (data : list string) :
  forall (i : nat) (p p' : page),
    forEach_from i Static.queue_row data p = (p', Normal tt) ->
    same_but_queue p p' /\
    exists rows : list queue_item,
      queue_list p' = (queue_list p ++ rows)%list /\
      length rows = length data /\
      forall (k : nat) (h : string), data !! k = Some h ->
        exists t, musics p !! h = Some t /\ rows !! k = Some (static_row h (i + k) t).
Proof.
  induction data as [|h data IH]; intros i p p' Hrun.
  - injection Hrun as <-. split; [apply same_but_queue_refl|].
    exists []. rewrite app_nil_r. repeat split; intros k h' Hk; discriminate Hk.
  - cbn [forEach_from] in Hrun.
    destruct (musics p !! h) as [t|] eqn:Hm.
    + rewrite (bind_normal _ _ _ _ _ (queue_row_found h i p t Hm)) in Hrun.
      apply IH in Hrun as (Hsame & rows & Hq & Hlen & Hrows).
      split.
      { eapply same_but_queue_trans; [|exact Hsame]. repeat split. }
      exists (static_row h i t :: rows). split; [|split].
      * rewrite Hq. cbn. now rewrite <- app_assoc.
      * cbn. now rewrite Hlen.
      * intros [|k] h' Hk; cbn in Hk.
        -- injection Hk as <-. exists t. split; [exact Hm|].
           now rewrite Nat.add_0_r.
        -- destruct (Hrows k h' Hk) as (t' & Ht' & Hr).
           exists t'. split; [exact Ht'|].
           change ((static_row h i t :: rows) !! S k) with (rows !! k).
           rewrite Hr. do 2 f_equal. lia.
    + rewrite (bind_thrown _ _ _ _ _ (queue_row_missing h i p Hm)) in Hrun.
      discriminate Hrun.
Qed.

(** The loop completes when every identifier is in the catalog. *)
Lemma forEach_rows_complete (data : list string) :
  forall (i : nat) (p : page),
    (forall h, h ∈ data -> is_Some (musics p !! h)) ->
    exists p', forEach_from i Static.queue_row data p = (p', Normal tt).
Proof.
  induction data as [|h data IH]; intros i p Hall.
  - now exists p.
  - destruct (Hall h) as [t Hm]; [left|].
    cbn [forEach_from].
    rewrite (bind_normal _ _ _ _ _ (queue_row_found h i p t Hm)).
    apply IH. intros h' Hin. cbn. apply Hall. now right.
Qed.

(** It stops at the first identifier the catalog lacks: the rows before it
    stay, no row is made for it or for those after it. *)
Lemma forEach_rows_stops (pre post : list string) (h : string) :
  forall (i : nat) (p : page),
    (forall h', h' ∈ pre -> is_Some (musics p !! h')) ->
    musics p !! h = None ->
    exists p', forEach_from i Static.queue_row (pre ++ h :: post) p
                 = (p', Thrown undefined_property) /\
               length (queue_list p') = (length (queue_list p) + length pre)%nat /\
               same_but_queue p p'.
Proof.
  induction pre as [|x pre IH]; intros i p Hall Hm.
  - exists p. cbn [app forEach_from].
    rewrite (bind_thrown _ _ _ _ _ (queue_row_missing h i p Hm)).
    split; [reflexivity|]. split; [cbn; lia|apply same_but_queue_refl].
  - destruct (Hall x) as [t Hx]; [left|].
    cbn [app forEach_from].
    rewrite (bind_normal _ _ _ _ _ (queue_row_found x i p t Hx)).
    edestruct (IH (S i)) as (p' & Hrun & Hlen & Hsame); [| |exists p'; split; [exact Hrun|]].
    + intros h' Hin. cbn. apply Hall. now right.
    + exact Hm.
    + split.
      * rewrite Hlen. cbn. rewrite length_app. cbn. lia.
      * eapply same_but_queue_trans; [|exact Hsame]. repeat split.
Qed.

Lemma render_queue_inv (data : list string) (p p' : page) :
  Static.render_queue data p = (p', Normal tt) ->
  same_but_queue p p' /\
  length (queue_list p') = length data /\
  forall (k : nat) (h : string), data !! k = Some h ->
    exists t, musics p !! h = Some t /\ queue_list p' !! k = Some (static_row h k t).
Proof.
  unfold Static.render_queue, forEach. intros Hrun.
  rewrite (bind_normal _ _ p (set_queue_list [] p) tt eq_refl) in Hrun.
  apply forEach_rows_inv in Hrun as (Hsame & rows & Hq & Hlen & Hrows).
  cbn in Hq. split; [|split].
  - eapply same_but_queue_trans; [|exact Hsame]. repeat split.
  - now rewrite Hq.
  - intros k h Hk. rewrite Hq. exact (Hrows k h Hk).
Qed.

Lemma render_queue_complete (data : list string) (p : page) :
  (forall h, h ∈ data -> is_Some (musics p !! h)) ->
  exists p', Static.render_queue data p = (p', Normal tt).
Proof.
  intros Hall. unfold Static.render_queue, forEach.
  rewrite (bind_normal _ _ p (set_queue_list [] p) tt eq_refl).
  now apply forEach_rows_complete.
Qed.

(** ** [parseInt] reads back what [toString] wrote *)

Lemma digit_cases (d : N) :
  (d < 10)%N ->
  d = 0%N \/ d = 1%N \/ d = 2%N \/ d = 3%N \/ d = 4%N \/
  d = 5%N \/ d = 6%N \/ d = 7%N \/ d = 8%N \/ d = 9%N.
Proof. lia. Qed.

Lemma digit_of_char (d : N) :
  (d < 10)%N -> JS.digit_of (pretty_N_char d) = Some (Z.of_N d).
Proof.
  intros Hd. destruct (digit_cases d Hd) as [H|H]; repeat (destruct H as [H|H]);
    subst d; reflexivity.
Qed.

Lemma parseInt_digit_first (d : N) (s : string) :
  (d < 10)%N ->
  JS.parseInt (String (pretty_N_char d) s)
  = JS.read_digits None (String (pretty_N_char d) s).
Proof.
  intros Hd. destruct (digit_cases d Hd) as [H|H]; repeat (destruct H as [H|H]);
    subst d; reflexivity.
Qed.

(** The digits of a positive number, written in front of [s], start with a
    digit. *)
Lemma pretty_N_go_head (x : N) :
  forall s, (0 < x)%N ->
    exists d s', (d < 10)%N /\ pretty_N_go x s = String (pretty_N_char d) s'.
Proof.
  induction (N.lt_wf_0 x) as [x _ IH]. intros s Hx.
  rewrite pretty_N_go_step by exact Hx.
  destruct (decide (x < 10)%N) as [Hlt|Hge].
  - rewrite N.div_small by exact Hlt. rewrite pretty_N_go_0.
    exists (x mod 10)%N, s. split; [|reflexivity].
    apply N.mod_lt. lia.
  - apply IH.
    + apply N.div_lt; lia.
    + apply N.div_str_pos. lia.
Qed.

(** Reading them back yields the number. *)
Lemma read_digits_pretty_N_go (x : N) :
  forall s, (0 < x)%N ->
    JS.read_digits None (pretty_N_go x s) = JS.read_digits (Some (Z.of_N x)) s.
Proof.
  induction (N.lt_wf_0 x) as [x _ IH]. intros s Hx.
  rewrite pretty_N_go_step by exact Hx.
  assert (Hmod : (x mod 10 < 10)%N) by (apply N.mod_lt; lia).
  destruct (decide (x < 10)%N) as [Hlt|Hge].
  - rewrite N.div_small by exact Hlt. rewrite pretty_N_go_0.
    cbn [JS.read_digits]. rewrite digit_of_char by exact Hmod.
    rewrite N.mod_small by exact Hlt. cbn [default]. f_equal; f_equal; unfold id; lia.
  - rewrite IH; [|apply N.div_lt; lia|apply N.div_str_pos; lia].
    cbn [JS.read_digits]. rewrite digit_of_char by exact Hmod.
    cbn [default]. f_equal; f_equal. unfold id.
    rewrite (N.div_mod x 10) at 3 by lia.
    rewrite N2Z.inj_add, N2Z.inj_mul. reflexivity.
Qed.

Lemma parseInt_pretty_pos (x : positive) :
  JS.parseInt (pretty (Npos x)) = Some (Zpos x).
Proof.
  unfold pretty, pretty_N. rewrite decide_False by discriminate.
  destruct (pretty_N_go_head (Npos x) EmptyString) as (d & s' & Hd & Heq); [lia|].
  rewrite Heq, parseInt_digit_first by exact Hd. rewrite <- Heq.
  rewrite read_digits_pretty_N_go by lia. reflexivity.
Qed.

Lemma parseInt_toString (z : Z) :
  JS.parseInt (JS.Number_toString z) = Some z.
Proof.
  destruct z as [|x|x].
  - reflexivity.
  - apply parseInt_pretty_pos.
  - unfold JS.Number_toString, pretty, pretty_Z.
    change (JS.parseInt ("-" +:+ pretty x))
      with (Z.opp <$> JS.read_digits None (pretty (Npos x))).
    pose proof (parseInt_pretty_pos x) as H.
    unfold pretty at 1, pretty_N in H. unfold pretty, pretty_positive, pretty, pretty_N.
    rewrite decide_False in * by discriminate.
    destruct (pretty_N_go_head (Npos x) EmptyString) as (d & s' & Hd & Heq); [lia|].
    rewrite Heq, parseInt_digit_first in H by exact Hd. rewrite <- Heq in H.
    now rewrite H.
Qed.

(** ** The now-playing line and the title *)

Lemma truthy_empty (s : string) : JS.truthy s = false <-> s = EmptyString.
Proof. destruct s; cbn; split; congruence. Qed.

Section NowPlaying.

Variables (npData : Current) (p : page).

(** [script.js], nothing playing. *)
Lemma static_now_playing_nothing :
  hash npData = EmptyString ->
  Static.update_now_playing npData p
  = (set_title "MusiSync" (set_now_playing "Nothing" p), Normal tt).
Proof. intros H. unfold Static.update_now_playing. rewrite H. reflexivity. Qed.

(** [script.js], a track of the catalog playing. *)
Lemma static_now_playing_track (t : Track) :
  JS.truthy (hash npData) = true ->
  musics p !! hash npData = Some t ->
  Static.update_now_playing npData p
  = (set_title ("MusiSync - " ++ name t)
       (set_now_playing
          (pause_icon npData ++ " "
             ++ (minutes_field (position npData) ++ ":" ++ seconds_field (position npData))
             ++ " | " ++ static_label (name t) (hash npData) (cur_duration npData))
          (set_dur_min (minutes_field (cur_duration npData))
             (set_dur_sec (seconds_field (cur_duration npData))
                (set_dur_min (minutes_field (position npData))
                   (set_dur_sec (seconds_field (position npData)) p))))),
     Normal tt).
Proof.
  intros Htruthy Hm. unfold Static.update_now_playing. rewrite Htruthy.
  unfold mbind, Sync_bind, bind, musics_at. rewrite !fancytime_eq.
  cbn [musics set_dur_min set_dur_sec]. rewrite Hm. rewrite fancyname_eq.
  cbn [mret Sync_ret ret modify musics set_now_playing set_dur_min set_dur_sec].
  rewrite Hm. reflexivity.
Qed.

(** [script.js], a track the catalog lacks: the line and the title stay
    as they were. *)
Lemma static_now_playing_missing :
  JS.truthy (hash npData) = true ->
  musics p !! hash npData = None ->
  exists p', Static.update_now_playing npData p = (p', Thrown undefined_property) /\
             now_playing p' = now_playing p /\ title p' = title p /\
             queue_list p' = queue_list p.
Proof.
  intros Htruthy Hm. unfold Static.update_now_playing. rewrite Htruthy.
  unfold mbind, Sync_bind, bind, musics_at. rewrite !fancytime_eq.
  cbn [musics set_dur_min set_dur_sec]. rewrite Hm.
  eexists. split; [reflexivity|]. repeat split.
Qed.

(** [part_000]: the title is never written, whatever the status. *)
Lemma legacy_now_playing_throws :
  exists e, (Legacy.update_now_playing npData p).2 = Thrown e /\
            title (Legacy.update_now_playing npData p).1 = title p.
Proof.
  unfold Legacy.update_now_playing.
  change (JS.truthy ("MusiSync - " +:+ hash npData)) with true.
  destruct (JS.truthy (hash npData)) eqn:Htruthy;
    destruct (musics p !! hash npData) as [t|] eqn:Hm;
    unfold mbind, Sync_bind, bind, musics_at;
    rewrite ?Hm, ?legacy_fancyname_eq;
    cbn [mret Sync_ret ret modify throw musics set_now_playing set_dur_min set_dur_sec];
    rewrite ?Hm; cbn; eauto.
Qed.

End NowPlaying.

(** What [script.js] does on a status refresh, as the specification has
    it. *)
Lemma static_status_refresh (npData : Current) (p : page) :
  (hash npData = EmptyString ->
     let p' := (Static.update_now_playing npData p).1 in
     now_playing p' = "Nothing" /\ title p' = "MusiSync") /\
  (forall t, hash npData <> EmptyString -> musics p !! hash npData = Some t ->
     title (Static.update_now_playing npData p).1 = "MusiSync - " ++ name t).
Proof.
  split.
  - intros H. now rewrite static_now_playing_nothing.
  - intros t Hne Hm.
    rewrite (static_now_playing_track npData p t); [reflexivity| |exact Hm].
    destruct (JS.truthy (hash npData)) eqn:E; [reflexivity|].
    now apply truthy_empty in E.
Qed.

(** C9, in [part_000]: with nothing playing, on a page whose title is
    MusiSync - Song, the status refresh writes Nothing to the now-playing
    line and then ends in a [TypeError] with the title not reset; with the
    track a of the catalog playing it ends in a [TypeError] with the title
    not set; and whatever the status and the page, the refresh of
    [part_000] throws and leaves the title as it was. *)
Theorem legacy_status_never_sets_title :
  let p0 := initial_page "Loading" "MusiSync - Song" in
  let idle := {| hash := EmptyString; paused := false; position := 0; cur_duration := 0 |} in
  let playing := {| hash := "a"; paused := false; position := 42; cur_duration := 125 |} in
  ((Legacy.update_now_playing idle p0).2 = Thrown undefined_property /\
   now_playing (Legacy.update_now_playing idle p0).1 = "Nothing" /\
   title (Legacy.update_now_playing idle p0).1 = "MusiSync - Song") /\
  ((Legacy.update_now_playing playing demo_page).2 = Thrown Legacy.const_assignment /\
   title (Legacy.update_now_playing playing demo_page).1 = "MusiSync") /\
  forall (npData : Current) (p : page),
    exists e, (Legacy.update_now_playing npData p).2 = Thrown e /\
              title (Legacy.update_now_playing npData p).1 = title p.
Proof.
  cbv zeta. split; [repeat split|]. split; [split; vm_compute; reflexivity|].
  intros npData p. apply legacy_now_playing_throws.
Qed.

(** ** Requests issued by the rows of the queue *)

(** A rendered row carries its own position, in its closure and in its
    [data-index] attribute. *)
Lemma rendered_row_position (data : list string) (p p' : page) (k : nat) (d : queue_item) :
  Static.render_queue data p = (p', Normal tt) ->
  queue_list p' !! k = Some d ->
  qi_i d = k /\ qi_dataset_index d = JS.Number_toString (Z.of_nat k) /\
  data !! k = Some (qi_hash d).
Proof.
  intros Hrun Hk.
  destruct (render_queue_inv data p p' Hrun) as (_ & Hlen & Hrows).
  destruct (data !! k) as [h|] eqn:Hd.
  - destruct (Hrows k h Hd) as (t & _ & Hr). rewrite Hr in Hk.
    injection Hk as <-. repeat split.
  - apply lookup_ge_None in Hd. apply lookup_lt_Some in Hk. lia.
Qed.

(** The request of a drop carries the position each row had in the render
    that made it, also when the queue was rendered anew between the start
    of the drag and the drop. *)
Lemma drop_sends_row_positions
    (data1 data2 : list string) (p1 p1' p2 p2' : page) (i j : nat)
    (di dj : queue_item) (dt : dataTransfer) (q : page) :
  Static.render_queue data1 p1 = (p1', Normal tt) ->
  queue_list p1' !! i = Some di ->
  Static.render_queue data2 p2 = (p2', Normal tt) ->
  queue_list p2' !! j = Some dj ->
  Static.drop dj (Static.dragstart di dt) q
  = (q, Fetch (reorder_request (Z.of_nat i) (Z.of_nat j)) (fun _ => Static.refreshQueue)).
Proof.
  intros Hrun1 Hi Hrun2 Hj.
  destruct (rendered_row_position data1 p1 p1' i di Hrun1 Hi) as (Hii & _ & _).
  destruct (rendered_row_position data2 p2 p2' j dj Hrun2 Hj) as (_ & Hjj & _).
  unfold Static.drop, Static.dragstart, getData.
  rewrite lookup_insert_eq. cbn [default from_option id].
  rewrite Hii, Hjj, !parseInt_toString. reflexivity.
Qed.

(** C5: a drag started on the row at position [i] of the rendered queue
    and dropped on the row at position [j] issues, before anything else
    and without touching the page, the request whose body is
    [{from: i, to: j}]; the queue is refreshed once it is answered. *)
Theorem drop_sends_both_indices
    (data : list string) (p p' : page) (i j : nat) (di dj : queue_item)
    (dt : dataTransfer) (q : page) :
  Static.render_queue data p = (p', Normal tt) ->
  queue_list p' !! i = Some di ->
  queue_list p' !! j = Some dj ->
  Static.drop dj (Static.dragstart di dt) q
  = (q, Fetch (reorder_request (Z.of_nat i) (Z.of_nat j)) (fun _ => Static.refreshQueue)).
Proof.
  intros Hrun Hi Hj.
  destruct (rendered_row_position data p p' i di Hrun Hi) as (Hfrom & _ & _).
  destruct (rendered_row_position data p p' j dj Hrun Hj) as (_ & Hto & _).
  unfold Static.drop, Static.dragstart, getData.
  rewrite lookup_insert_eq. cbn [default from_option id].
  rewrite Hfrom, Hto.
  now rewrite !parseInt_toString.
Qed.

Lemma drop_sends_both_indices_witness :
  Static.drop (static_row "c" 2 {| name := "Gamma"; duration := 0 |})
    (Static.dragstart (static_row "a" 0 {| name := "Alpha"; duration := 125 |}) ∅)
    demo_page
  = (demo_page, Fetch (reorder_request 0 2) (fun _ => Static.refreshQueue)).
Proof.
  apply (drop_sends_both_indices ["a"; "b"; "c"] demo_page
           (Static.render_queue ["a"; "b"; "c"] demo_page).1 0 2);
    vm_compute; reflexivity.
Defined.

(** A refresh whose two answers are known, in one piece. *)
Lemma refresh_run_intro (server : request -> response) (data : list string)
    (npData : Current) (p p1 p2 : page) (o : outcome unit) :
  server (mk_get "/api/queue") = RespQueue data ->
  server (mk_get "/api/current") = RespCurrent npData ->
  Static.render_queue data p = (p1, Normal tt) ->
  Static.update_now_playing npData p1 = (p2, o) ->
  run_to_end server (Static.refreshQueue p).2 p
  = (p2, o, [mk_get "/api/queue"; mk_get "/api/current"]).
Proof.
  intros Hq Hc Hrun Hnp.
  cbn [Static.refreshQueue snd run_to_end]. rewrite Hq, Hrun.
  cbn [run_to_end]. rewrite Hc. unfold settle. rewrite Hnp. reflexivity.
Qed.

(** The status display completes when nothing plays or the current track
    is in the catalog, and leaves the queue list alone. *)
Lemma status_display_completes (npData : Current) (p : page) :
  hash npData = EmptyString \/ is_Some (musics p !! hash npData) ->
  exists p', Static.update_now_playing npData p = (p', Normal tt) /\
             queue_list p' = queue_list p.
Proof.
  intros Hcur. destruct (JS.truthy (hash npData)) eqn:Htruthy.
  - destruct Hcur as [He|[t Ht]].
    + rewrite He in Htruthy. discriminate Htruthy.
    + rewrite (static_now_playing_track npData p t Htruthy Ht).
      eexists. split; reflexivity.
  - apply truthy_empty in Htruthy.
    rewrite (static_now_playing_nothing npData p Htruthy).
    eexists. split; reflexivity.
Qed.

(** C6: the Delete button of the row rendered for the identifier [h]
    issues, before anything else and without touching the page, the
    removal request whose body is [{hash: h}] and nothing else, whatever
    the position of the row; once it is answered, whatever the answer, the
    queue view refreshes: the script reads /api/queue and /api/current and
    the list then shows one row per identifier of the queue the server
    now has, in its order, each with the label of its track (for a queue
    and a current track the catalog knows). *)
Theorem delete_sends_identifier_only
    (data : list string) (p p' : page) (i : nat) (h : string) (div : queue_item)
    (q : page) :
  Static.render_queue data p = (p', Normal tt) ->
  data !! i = Some h ->
  queue_list p' !! i = Some div ->
  Static.delete_onclick div q
    = (q, Fetch (delete_request h) (fun _ => Static.refreshQueue)) /\
  forall (server : request -> response) (data' : list string) (npData : Current),
    server (mk_get "/api/queue") = RespQueue data' ->
    server (mk_get "/api/current") = RespCurrent npData ->
    (forall x, x ∈ data' -> is_Some (musics q !! x)) ->
    (hash npData = EmptyString \/ is_Some (musics q !! hash npData)) ->
    exists q',
      run_to_end server (Static.delete_onclick div q).2 q
        = (q', Normal tt,
           [delete_request h; mk_get "/api/queue"; mk_get "/api/current"]) /\
      length (queue_list q') = length data' /\
      forall (k : nat) (x : string), data' !! k = Some x ->
        exists t, musics q !! x = Some t /\
                  queue_list q' !! k = Some (static_row x k t).
Proof.
  intros Hrun Hd Hi.
  destruct (render_queue_inv data p p' Hrun) as (_ & _ & Hrows).
  destruct (Hrows i h Hd) as (t & _ & Hr). rewrite Hr in Hi. injection Hi as <-.
  split; [reflexivity|].
  intros server data' npData Hq Hc Hall Hcur.
  destruct (render_queue_complete data' q Hall) as (q1 & Hrun').
  destruct (render_queue_inv data' q q1 Hrun') as ((Hmus & _) & Hlen & Hrows').
  destruct (status_display_completes npData q1) as (q2 & Hnp & Hq2).
  { now rewrite Hmus. }
  exists q2. split; [|split].
  - change (run_to_end server (Static.delete_onclick (static_row h i t) q).2 q)
      with (match run_to_end server (Static.refreshQueue q).2 q with
            | (q'', o, rs) => (q'', o, delete_request h :: rs)
            end).
    rewrite (refresh_run_intro server data' npData q q1 q2 (Normal tt) Hq Hc Hrun' Hnp).
    reflexivity.
  - now rewrite Hq2.
  - intros k x Hk. destruct (Hrows' k x Hk) as (t' & Ht' & Hr').
    exists t'. split; [exact Ht'|]. now rewrite Hq2.
Qed.

Lemma delete_sends_identifier_only_witness :
  Static.delete_onclick (static_row "a" 2 {| name := "Alpha"; duration := 125 |}) demo_page
    = (demo_page, Fetch (delete_request "a") (fun _ => Static.refreshQueue)) /\
  forall (server : request -> response) (data' : list string) (npData : Current),
    server (mk_get "/api/queue") = RespQueue data' ->
    server (mk_get "/api/current") = RespCurrent npData ->
    (forall x, x ∈ data' -> is_Some (musics demo_page !! x)) ->
    (hash npData = EmptyString \/ is_Some (musics demo_page !! hash npData)) ->
    exists q',
      run_to_end server
        (Static.delete_onclick (static_row "a" 2 {| name := "Alpha"; duration := 125 |})
           demo_page).2 demo_page
        = (q', Normal tt,
           [delete_request "a"; mk_get "/api/queue"; mk_get "/api/current"]) /\
      length (queue_list q') = length data' /\
      forall (k : nat) (x : string), data' !! k = Some x ->
        exists t, musics demo_page !! x = Some t /\
                  queue_list q' !! k = Some (static_row x k t).
Proof.
  apply (delete_sends_identifier_only ["a"; "b"; "a"] demo_page
           (Static.render_queue ["a"; "b"; "a"] demo_page).1 2 "a");
    vm_compute; reflexivity.
Defined.

(** After the row of the first a of the queue a, b, a is deleted and the
    server answers with the queue b, a, the list shows b, a. *)
Example delete_then_refresh_shows_new_queue :
  let server := fun r : request =>
    if String.eqb (path r) "/api/current"
    then RespCurrent {| hash := "b"; paused := true; position := 7; cur_duration := 59 |}
    else match method r with
         | GET => RespQueue ["b"; "a"]
         | _ => RespOther
         end in
  let p' := (Static.render_queue ["a"; "b"; "a"] demo_page).1 in
  let result := run_to_end server
                  (Static.delete_onclick (static_row "a" 0 {| name := "Alpha"; duration := 125 |})
                     p').2 p' in
  result.2 = [delete_request "a"; mk_get "/api/queue"; mk_get "/api/current"] /\
  result.1.2 = Normal tt /\
  qi_hash <$> queue_list result.1.1 = ["b"; "a"] /\
  title result.1.1 = "MusiSync - Beta".
Proof. vm_compute. repeat split. Qed.

(** In the queue a, b, a the first and the last row issue the same
    request. *)
Example delete_duplicate_rows :
  let p' := (Static.render_queue ["a"; "b"; "a"] demo_page).1 in
  (fun d => (Static.delete_onclick d p').2) <$> queue_list p'
  = [ Fetch (delete_request "a") (fun _ => Static.refreshQueue);
      Fetch (delete_request "b") (fun _ => Static.refreshQueue);
      Fetch (delete_request "a") (fun _ => Static.refreshQueue) ].
Proof. vm_compute. reflexivity. Qed.

(** ** A whole refresh against a server *)

(** C2, counterexample: with the catalog of the examples and the queue
    a, zz, c, where zz is not in the catalog, the refresh ends in a
    [TypeError]; one row is rendered instead of three, none carries a
    placeholder, and the now-playing line is not updated. *)
Lemma refresh_throws_on_stale_identifier :
  let server := fun r : request =>
    if String.eqb (path r) "/api/queue" then RespQueue ["a"; "zz"; "c"]
    else RespCurrent {| hash := "a"; paused := false; position := 42; cur_duration := 125 |} in
  let result := run_to_end server (Static.refreshQueue demo_page).2 demo_page in
  result.1.2 = Thrown undefined_property /\
  qi_hash <$> queue_list result.1.1 = ["a"] /\
  now_playing result.1.1 = "Nothing" /\
  result.2 = [mk_get "/api/queue"].
Proof. vm_compute. repeat split. Qed.

(** C2, amended: when every identifier of the queue is in the catalog, and
    the current identifier is empty or in the catalog, the refresh does not
    throw; it reads the queue and the status, and renders one row per
    position, each with the label of its track. *)
Theorem refresh_renders_known_identifiers
    (server : request -> response) (data : list string) (npData : Current) (p : page) :
  server (mk_get "/api/queue") = RespQueue data ->
  server (mk_get "/api/current") = RespCurrent npData ->
  (forall h, h ∈ data -> is_Some (musics p !! h)) ->
  (hash npData = EmptyString \/ is_Some (musics p !! hash npData)) ->
  exists p',
    run_to_end server (Static.refreshQueue p).2 p
      = (p', Normal tt, [mk_get "/api/queue"; mk_get "/api/current"]) /\
    length (queue_list p') = length data /\
    forall (k : nat) (h : string), data !! k = Some h ->
      exists t, musics p !! h = Some t /\
                qi_content <$> queue_list p' !! k = Some (static_label (name t) h (duration t)).
Proof.
  intros Hq Hc Hall Hcur.
  destruct (render_queue_complete data p Hall) as (p1 & Hrun).
  destruct (render_queue_inv data p p1 Hrun) as ((Hmus & _) & Hlen & Hrows).
  assert (Hnp : exists p2, Static.update_now_playing npData p1 = (p2, Normal tt) /\
                           queue_list p2 = queue_list p1).
  { destruct (JS.truthy (hash npData)) eqn:Htruthy.
    - destruct Hcur as [He|[t Ht]].
      + rewrite He in Htruthy. discriminate Htruthy.
      + rewrite <- Hmus in Ht.
        rewrite (static_now_playing_track npData p1 t Htruthy Ht).
        eexists. split; reflexivity.
    - apply truthy_empty in Htruthy.
      rewrite (static_now_playing_nothing npData p1 Htruthy).
      eexists. split; reflexivity. }
  destruct Hnp as (p2 & Hnp & Hq2).
  exists p2. split; [|split].
  - cbn [Static.refreshQueue snd run_to_end]. rewrite Hq, Hrun.
    cbn [run_to_end]. rewrite Hc. unfold settle. rewrite Hnp. reflexivity.
  - now rewrite Hq2.
  - intros k h Hk. destruct (Hrows k h Hk) as (t & Ht & Hr).
    exists t. split; [exact Ht|]. rewrite Hq2, Hr. reflexivity.
Qed.

Lemma refresh_renders_known_identifiers_witness :
  exists p',
    run_to_end
      (fun r : request =>
         if String.eqb (path r) "/api/queue" then RespQueue ["a"; "b"; "a"]
         else RespCurrent {| hash := "a"; paused := false; position := 42;
                             cur_duration := 125 |})
      (Static.refreshQueue demo_page).2 demo_page
      = (p', Normal tt, [mk_get "/api/queue"; mk_get "/api/current"]) /\
    length (queue_list p') = length ["a"; "b"; "a"] /\
    forall (k : nat) (h : string), ["a"; "b"; "a"] !! k = Some h ->
      exists t, musics demo_page !! h = Some t /\
                qi_content <$> queue_list p' !! k = Some (static_label (name t) h (duration t)).
Proof.
  apply (refresh_renders_known_identifiers
           (fun r : request =>
              if String.eqb (path r) "/api/queue" then RespQueue ["a"; "b"; "a"]
              else RespCurrent {| hash := "a"; paused := false; position := 42;
                                  cur_duration := 125 |})
           ["a"; "b"; "a"]
           {| hash := "a"; paused := false; position := 42; cur_duration := 125 |}
           demo_page).
  - reflexivity.
  - reflexivity.
  - intros h Hin. apply list_elem_of_In in Hin. cbn in Hin.
    destruct Hin as [<-|[<-|[<-|[]]]]; vm_compute; eauto.
  - right. vm_compute. eauto.
Defined.

(** ** The event loop *)

Lemma resume_keeps (pa : page * Async) (w : world) :
  timers (resume pa w) = timers w /\ fired (resume pa w) = fired w /\
  now (resume pa w) = now w /\ drag (resume pa w) = drag w.
Proof. destruct pa as [p [[[]|e]|r k]]; repeat split. Qed.

(** C8: when the autoplay toggle changes to [checked], the script issues
    the one request POST /api/autoplay_set whose body is [checked], and
    neither the call nor the arrival of the answer changes the page
    (catalog, queue list, now-playing line, title), issues another request
    or registers a timer. *)
Theorem autoplay_toggle_is_fire_and_forget (w : world) (checked : bool) :
  let req := mk_req POST "/api/autoplay_set" (JBool checked) in
  let w1 := step StaticPage.handlers w (Ev_toggle checked) in
  sent w1 = (sent w ++ [req])%list /\
  doc w1 = doc w /\ timers w1 = timers w /\
  forall res : response,
    let w2 := step StaticPage.handlers w1 (Ev_response (length (pending w)) res) in
    doc w2 = doc w /\ sent w2 = (sent w ++ [req])%list /\
    pending w2 = pending w /\ timers w2 = timers w /\ unhandled w2 = unhandled w.
Proof.
  cbv zeta. split; [reflexivity|]. split; [reflexivity|]. split; [reflexivity|].
  intros res. cbn [step StaticPage.handlers on_atp_change spawn Static.atp_change resume
                   set_doc set_pending log_sent pending doc].
  rewrite list_lookup_middle by reflexivity.
  cbn [done_ resume set_doc set_pending log_sent doc sent pending timers unhandled].
  rewrite (delete_middle (pending w) []), app_nil_r. repeat split.
Qed.

(** *** Which requests a script can ever issue *)

Section Requests.

Variable P : request -> Prop.

Lemma settle_only (m : Sync unit) : task_only P (settle m).
Proof. intros p. unfold settle. destruct (m p). constructor. Qed.

Lemma done_only : task_only P done_.
Proof. intros p. constructor. Qed.

(** What a resumed function adds to the log satisfies [P]. *)
Lemma resume_only (pa : page * Async) (w : world) :
  issues_only P pa.2 -> world_only P w ->
  world_only P (resume pa w) /\
  exists new, sent (resume pa w) = (sent w ++ new)%list /\ Forall P new.
Proof.
  intros Hpa [Hpend Htim]. destruct pa as [p [[[]|e]|r k]]; cbn in *.
  - split; [split; assumption|]. exists []. now rewrite app_nil_r.
  - split; [split; assumption|]. exists []. now rewrite app_nil_r.
  - inversion Hpa as [|r' k' Hr Hk]; subst. split.
    + split; [|assumption]. apply Forall_app. split; [assumption|].
      constructor; [exact Hk|constructor].
    + exists [r]. split; [reflexivity|]. now constructor.
Qed.

Lemma spawn_only (t : Task) (w : world) :
  task_only P t -> world_only P w ->
  world_only P (spawn t w) /\
  exists new, sent (spawn t w) = (sent w ++ new)%list /\ Forall P new.
Proof. intros Ht Hw. apply resume_only; [apply Ht|exact Hw]. Qed.

Variable sc : script.
Hypothesis Hsc : script_only P sc.

Lemma step_only (w : world) (e : event) :
  world_only P w ->
  world_only P (step sc w e) /\
  exists new, sent (step sc w e) = (sent w ++ new)%list /\ Forall P new.
Proof.
  intros Hw.
  assert (Hsame : world_only P w /\
            exists new, sent w = (sent w ++ new)%list /\ Forall P new).
  { split; [exact Hw|]. exists []. now rewrite app_nil_r. }
  destruct Hw as [Hpend Htim].
  destruct e as [n res|n|ms|n|n|n|n|n|b| |]; cbn [step].
  - destruct (pending w !! n) as [[r k]|] eqn:Hn; [|exact Hsame].
    apply (resume_only (k res (doc w)) (set_pending (delete n (pending w)) w)).
    + exact (proj1 (Forall_lookup _ _) Hpend n (r, k) Hn res (doc w)).
    + split; cbn; [now apply Forall_delete|assumption].
  - destruct (pending w !! n) as [rk|] eqn:Hn; [|exact Hsame].
    split; [split; cbn; [now apply Forall_delete|assumption]|].
    exists []. cbn. now rewrite app_nil_r.
  - split; [split; assumption|]. exists []. cbn. now rewrite app_nil_r.
  - destruct (timers w !! n) as [t|] eqn:Hn; [|exact Hsame].
    destruct (due t <=? now w)%N; [|exact Hsame].
    pose proof (proj1 (Forall_lookup _ _) Htim n t Hn) as Ht.
    apply (spawn_only (callback t)
             (log_fired (tag t) (set_timers (rearm n t (timers w)) w)));
      [exact Ht|].
    split; cbn; [assumption|]. unfold rearm.
    destruct (period t); [|now apply Forall_delete].
    apply Forall_insert; assumption.
  - destruct (music_list (doc w) !! n); [|exact Hsame].
    apply spawn_only; [apply Hsc|split; assumption].
  - destruct (queue_list (doc w) !! n); [|exact Hsame].
    apply spawn_only; [apply Hsc|split; assumption].
  - destruct (queue_list (doc w) !! n); [|exact Hsame].
    split; [split; assumption|]. exists []. cbn. now rewrite app_nil_r.
  - destruct (queue_list (doc w) !! n); [|exact Hsame].
    apply spawn_only; [apply Hsc|split; assumption].
  - apply spawn_only; [apply Hsc|split; assumption].
  - apply spawn_only; [apply Hsc|split; assumption].
  - apply spawn_only; [apply Hsc|split; assumption].
Qed.

Lemma steps_only (evs : list event) :
  forall w, world_only P w ->
    world_only P (steps sc w evs) /\
    exists new, sent (steps sc w evs) = (sent w ++ new)%list /\ Forall P new.
Proof.
  induction evs as [|e evs IH]; intros w Hw.
  - split; [exact Hw|]. exists []. cbn. now rewrite app_nil_r.
  - destruct (step_only w e Hw) as (Hw1 & new1 & Hs1 & Hn1).
    destruct (IH _ Hw1) as (Hw2 & new2 & Hs2 & Hn2).
    split; [exact Hw2|]. exists (new1 ++ new2)%list. split.
    + unfold steps in *. cbn [foldl]. rewrite Hs2, Hs1. now rewrite <- app_assoc.
    + apply Forall_app. now split.
Qed.

End Requests.

(** *** The autoplay getter *)

Section ScriptRequests.

Variable P : request -> Prop.
Hypothesis Pget : forall url, url <> "/api/autoplay_get" -> P (mk_get url).
Hypothesis Preq : forall m url b, url <> "/api/autoplay_get" -> P (mk_req m url b).
Hypothesis Ppost : forall url, url <> "/api/autoplay_get" -> P (mk_post url).

Lemma static_refreshQueue_only : task_only P Static.refreshQueue.
Proof.
  intros p. constructor; [now apply Pget|]. intros res p'.
  destruct res; try constructor. cbn.
  destruct (Static.render_queue data p') as [p'' [[]|e]]; constructor;
    [now apply Pget|].
  intros npRes q. destruct npRes; apply settle_only.
Qed.

Lemma static_loadMusics_only : task_only P Static.loadMusics.
Proof.
  intros p. constructor; [now apply Pget|]. intros res p'.
  destruct res; apply settle_only.
Qed.

Lemma static_handlers_only : script_only P StaticPage.handlers.
Proof.
  split; cbn; intros; intros p; constructor;
    try (now apply Preq); try (now apply Ppost);
    intros res p'; apply static_refreshQueue_only || apply done_only.
Qed.

Lemma legacy_refreshQueue_only : task_only P Legacy.refreshQueue.
Proof.
  intros p. constructor; [now apply Pget|]. intros res p'.
  destruct res; try constructor. cbn.
  destruct (Legacy.render_queue data p') as [p'' [[]|e]]; constructor;
    [now apply Pget|].
  intros npRes q. destruct npRes; apply settle_only.
Qed.

Lemma legacy_loadMusics_only : task_only P Legacy.loadMusics.
Proof.
  intros p. constructor; [now apply Pget|]. intros res p'.
  destruct res; apply settle_only.
Qed.

Lemma legacy_handlers_only : script_only P LegacyPage.handlers.
Proof.
  split; cbn; intros; intros p; constructor;
    try (now apply Preq); try (now apply Ppost);
    intros res p'; apply legacy_refreshQueue_only || apply done_only.
Qed.

Lemma setTimeout_only (j : job) (f : Task) (ms : N) (w : world) :
  task_only P f -> world_only P w -> world_only P (setTimeout j f ms w).
Proof.
  intros Hf [Hpend Htim]. split; cbn; [assumption|].
  apply Forall_app. split; [assumption|]. now repeat constructor.
Qed.

Lemma boot_only (p : page) : world_only P (boot p).
Proof. split; constructor. Qed.

Lemma static_loaded_only (p : page) : world_only P (StaticPage.loaded p).
Proof.
  unfold StaticPage.loaded, StaticPage.main.
  apply setTimeout_only; [apply static_refreshQueue_only|].
  apply setTimeout_only; [apply static_loadMusics_only|].
  apply spawn_only; [apply static_refreshQueue_only|].
  apply spawn_only; [apply static_loadMusics_only|].
  apply boot_only.
Qed.

(** In [part_000] the continuation of [atp_get] issues nothing, so what
    is pending after the load issues requests of [P] only, although the
    first request sent was the getter's. *)
Lemma legacy_loaded_only (p : page) : world_only P (LegacyPage.loaded p).
Proof.
  unfold LegacyPage.loaded, LegacyPage.main.
  apply spawn_only; [apply legacy_refreshQueue_only|].
  apply spawn_only; [apply legacy_loadMusics_only|].
  split; [|constructor]. cbn. constructor; [|constructor].
  intros res q. apply done_only.
Qed.

End ScriptRequests.

(** C4, on [script.js]: loading the page sends the reads of the catalog and
    of the queue and no read of /api/autoplay_get, and no later event
    (answer, failure, timer, click, drag, toggle, play, pause) ever sends
    one: the getter [atp_get] is defined and never called. *)
Theorem static_never_reads_autoplay (p : page) (evs : list event) :
  sent (StaticPage.loaded p) = [mk_get "/api/musics"; mk_get "/api/queue"] /\
  Forall not_autoplay_get (sent (steps StaticPage.handlers (StaticPage.loaded p) evs)).
Proof.
  split; [reflexivity|].
  assert (Hget : forall url, url <> "/api/autoplay_get" -> not_autoplay_get (mk_get url))
    by (intros url H; exact H).
  assert (Hreq : forall m url b, url <> "/api/autoplay_get" -> not_autoplay_get (mk_req m url b))
    by (intros m url b H; exact H).
  assert (Hpost : forall url, url <> "/api/autoplay_get" -> not_autoplay_get (mk_post url))
    by (intros url H; exact H).
  destruct (steps_only not_autoplay_get StaticPage.handlers
              (static_handlers_only _ Hget Hreq Hpost) evs (StaticPage.loaded p)
              (static_loaded_only _ Hget p)) as (_ & new & Hs & Hnew).
  rewrite Hs. apply Forall_app. split; [|exact Hnew].
  repeat constructor; discriminate.
Qed.

(** X16: [part_000] calls the getter once while loading (line 9) and never
    again: in any of its sessions the first request sent is the read of
    /api/autoplay_get and no later request is. *)
Lemma legacy_reads_autoplay_once (p : page) (evs : list event) :
  exists rest,
    sent (steps LegacyPage.handlers (LegacyPage.loaded p) evs)
      = mk_get "/api/autoplay_get" :: rest /\
    Forall not_autoplay_get rest.
Proof.
  assert (Hget : forall url, url <> "/api/autoplay_get" -> not_autoplay_get (mk_get url))
    by (intros url H; exact H).
  assert (Hreq : forall m url b, url <> "/api/autoplay_get" -> not_autoplay_get (mk_req m url b))
    by (intros m url b H; exact H).
  assert (Hpost : forall url, url <> "/api/autoplay_get" -> not_autoplay_get (mk_post url))
    by (intros url H; exact H).
  destruct (steps_only not_autoplay_get LegacyPage.handlers
              (legacy_handlers_only _ Hget Hreq Hpost) evs (LegacyPage.loaded p)
              (legacy_loaded_only _ Hget p)) as (_ & new & Hs & Hnew).
  exists ([mk_get "/api/musics"; mk_get "/api/queue"] ++ new)%list.
  split; [rewrite Hs; reflexivity|].
  apply Forall_app. split; [|exact Hnew].
  repeat constructor; discriminate.
Qed.

(** *** Timers *)

Lemma timers_inv_loaded (p : page) : timers_inv (StaticPage.loaded p).
Proof. split; [repeat constructor|reflexivity]. Qed.

Lemma timers_inv_resume (pa : page * Async) (w : world) :
  timers_inv w -> timers_inv (resume pa w).
Proof.
  unfold timers_inv. destruct (resume_keeps pa w) as (-> & -> & _). auto.
Qed.

Lemma timers_inv_step (sc : script) (w : world) (e : event) :
  timers_inv w -> timers_inv (step sc w e).
Proof.
  intros Hw. destruct e as [n res|n|ms|n|n|n|n|n|b| |]; cbn [step];
    try (apply timers_inv_resume; exact Hw);
    try exact Hw.
  - destruct (pending w !! n) as [[r k]|]; [|exact Hw].
    apply timers_inv_resume. exact Hw.
  - destruct (pending w !! n); exact Hw.
  - destruct (timers w !! n) as [t|] eqn:Hn; [|exact Hw].
    destruct (due t <=? now w)%N; [|exact Hw].
    apply timers_inv_resume. destruct Hw as [Hone Hperm].
    pose proof (proj1 (Forall_lookup _ _) Hone n t Hn) as Ht.
    unfold timers_inv, rearm. cbn. rewrite Ht. split.
    + now apply Forall_delete.
    + rewrite <- Hperm, <- app_assoc. apply Permutation_app_head.
      rewrite (delete_Permutation (timers w) n t Hn) at 2. reflexivity.
  - destruct (music_list (doc w) !! n); [apply timers_inv_resume|]; exact Hw.
  - destruct (queue_list (doc w) !! n); [apply timers_inv_resume|]; exact Hw.
  - destruct (queue_list (doc w) !! n); exact Hw.
  - destruct (queue_list (doc w) !! n); [apply timers_inv_resume|]; exact Hw.
Qed.

Lemma timers_inv_steps (sc : script) (evs : list event) :
  forall w, timers_inv w -> timers_inv (steps sc w evs).
Proof.
  induction evs as [|e evs IH]; intros w Hw; [exact Hw|].
  apply IH, timers_inv_step, Hw.
Qed.

(** C3, on [script.js]: both timers are set with [setTimeout], so however
    long the page stays open and whatever happens, a timer refreshes the
    catalog at most once and the queue at most once; left alone for 65
    seconds the page has run each timer once, none is registered any more,
    and a second timer-driven refresh of either kind never occurs. *)
Theorem timers_fire_at_most_once (p : page) :
  (forall (evs : list event) (j : job),
     (timer_runs j (steps StaticPage.handlers (StaticPage.loaded p) evs) <= 1)%nat) /\
  let w := steps StaticPage.handlers (StaticPage.loaded p)
             [Ev_time 1000; Ev_timer 1; Ev_time 4000; Ev_timer 0; Ev_time 60000;
              Ev_timer 0; Ev_timer 1] in
  fired w = [Job_refreshQueue; Job_loadMusics] /\ timers w = [] /\ now w = 65000%N.
Proof.
  split; [|repeat split].
  intros evs j.
  destruct (timers_inv_steps StaticPage.handlers evs _ (timers_inv_loaded p))
    as [_ Hperm].
  unfold timer_runs.
  set (w := steps StaticPage.handlers (StaticPage.loaded p) evs) in *.
  transitivity (length (filter (fun x => x = j) (fired w ++ (tag <$> timers w))%list)).
  - rewrite filter_app, length_app. lia.
  - rewrite Hperm. destruct j; vm_compute; lia.
Qed.


(** ** Two sessions *)

(** The page loads, the catalog, the queue a, b, c and the status arrive in
    that order, the first row is dragged onto the third, and the request
    is answered: the requests sent, the title and the number of rows. *)
Example session_drag_first_onto_third :
  let w := steps StaticPage.handlers (StaticPage.loaded (initial_page "Nothing" "MusiSync"))
             [Ev_response 0 (RespMusics demo_catalog);
              Ev_response 0 (RespQueue ["a"; "b"; "c"]);
              Ev_response 0 (RespCurrent {| hash := "a"; paused := false;
                                            position := 42; cur_duration := 125 |});
              Ev_dragstart 0; Ev_drop 2; Ev_response 0 RespOther] in
  sent w = [mk_get "/api/musics"; mk_get "/api/queue"; mk_get "/api/current";
            reorder_request 0 2; mk_get "/api/queue"] /\
  title (doc w) = "MusiSync - Alpha" /\
  length (queue_list (doc w)) = 3%nat /\
  unhandled w = [].
Proof. vm_compute. repeat split. Qed.

(** The same load with the queue answered before the catalog: the render
    meets an empty catalog and the refresh is rejected with no row
    rendered. *)
Example session_queue_before_catalog :
  let w := steps StaticPage.handlers (StaticPage.loaded (initial_page "Nothing" "MusiSync"))
             [Ev_response 1 (RespQueue ["a"; "b"; "c"]);
              Ev_response 0 (RespMusics demo_catalog)] in
  unhandled w = [undefined_property] /\
  queue_list (doc w) = [] /\
  sent w = [mk_get "/api/musics"; mk_get "/api/queue"].
Proof. vm_compute. repeat split. Qed.


(** * Further properties *)

(** ** Pages *)

Lemma page_eq (p q : page) :
  musics p = musics q -> dur_sec p = dur_sec q -> dur_min p = dur_min q ->
  music_list p = music_list q -> queue_list p = queue_list q ->
  now_playing p = now_playing q -> title p = title q -> p = q.
Proof. destruct p, q; cbn; intros; subst; reflexivity. Qed.

(** ** The catalog list ([loadMusics]) *)

Lemma music_row_eq (entry : string * Track) (i : nat) (p : page) :
  Static.music_row entry i p =
    (set_music_list (music_list p ++ [static_music_item entry])
       (set_dur_min (minutes_field (duration entry.2))
          (set_dur_sec (seconds_field (duration entry.2)) p)),
     Normal tt).
Proof. destruct entry as [h t]. reflexivity. Qed.

Lemma last_cons_cons {A} (x y : A) (l : list A) : last (x :: y :: l) = last (y :: l).
Proof. reflexivity. Qed.

Lemma forEach_music_rows (l : list (string * Track)) :
  forall (i : nat) (p : page),
    exists p', forEach_from i Static.music_row l p = (p', Normal tt) /\
      music_list p' = (music_list p ++ (static_music_item <$> l))%list /\
      musics p' = musics p /\ queue_list p' = queue_list p /\
      now_playing p' = now_playing p /\ title p' = title p /\
      dur_sec p' = dur_sec_after (snd <$> last l) (dur_sec p) /\
      dur_min p' = dur_min_after (snd <$> last l) (dur_min p).
Proof.
  induction l as [|e l IH]; intros i p.
  - exists p. cbn. rewrite app_nil_r. repeat split.
  - cbn [forEach_from]. rewrite (bind_normal _ _ _ _ _ (music_row_eq e i p)).
    destruct (IH (S i) (set_music_list (music_list p ++ [static_music_item e])
                (set_dur_min (minutes_field (duration e.2))
                   (set_dur_sec (seconds_field (duration e.2)) p))))
      as (p' & Hrun & Hl & Hm & Hq & Hn & Ht & Hs & Hmin).
    exists p'. split; [exact Hrun|]. cbn in Hl, Hm, Hq, Hn, Ht, Hs, Hmin.
    split; [rewrite Hl, <- app_assoc; reflexivity|].
    repeat (split; [assumption|]).
    destruct l as [|e' l]; [split; [exact Hs|exact Hmin]|].
    rewrite last_cons_cons. split; [rewrite Hs|rewrite Hmin];
      destruct (last (e' :: l)) eqn:Hlast; try reflexivity;
      now apply last_None in Hlast.
Qed.

(** Every field of the page [loadMusics] leaves. *)
Lemma render_musics_fields (data : gmap string Track) (p : page) :
  exists p', Static.render_musics data p = (p', Normal tt) /\
    musics p' = data /\
    music_list p' = static_music_item <$> map_to_list data /\
    queue_list p' = queue_list p /\ now_playing p' = now_playing p /\
    title p' = title p /\
    dur_sec p' = dur_sec_after (snd <$> last (map_to_list data)) (dur_sec p) /\
    dur_min p' = dur_min_after (snd <$> last (map_to_list data)) (dur_min p).
Proof.
  unfold Static.render_musics, forEach.
  rewrite (bind_normal _ _ p (set_music_list [] p) tt eq_refl).
  destruct (forEach_music_rows (map_to_list data) 0 (set_music_list [] p))
    as (p1 & Hrun & Hl & Hm & Hq & Hn & Ht & Hs & Hmin).
  rewrite (bind_normal _ _ _ _ _ Hrun).
  exists (set_musics data p1). split; [reflexivity|]. cbn.
  repeat split; assumption.
Qed.

(** X1: [loadMusics], once the catalog has arrived, never throws; it
    replaces the catalog by the one received, whatever it held before,
    lists one row per entry of the new catalog, each labelled with the
    name, the identifier's prefix and the duration of its track, and
    leaves the queue list, the now-playing line and the title alone. *)
Theorem loadMusics_replaces_catalog (data : gmap string Track) (p : page) :
  exists p', Static.render_musics data p = (p', Normal tt) /\
    musics p' = data /\
    length (music_list p') = size data /\
    (forall (n : nat) (div : music_item), music_list p' !! n = Some div ->
       exists t, data !! mi_hash div = Some t /\
                 mi_content div = static_label (name t) (mi_hash div) (duration t)) /\
    queue_list p' = queue_list p /\ now_playing p' = now_playing p /\
    title p' = title p.
Proof.
  destruct (render_musics_fields data p) as (p' & Hrun & Hm & Hl & Hq & Hn & Ht & _).
  exists p'. split; [exact Hrun|]. split; [exact Hm|].
  split; [now rewrite Hl, length_fmap, length_map_to_list|].
  split; [|repeat split; assumption].
  intros n div Hdiv. rewrite Hl, list_lookup_fmap in Hdiv.
  destruct (map_to_list data !! n) as [[h t]|] eqn:He; [|discriminate Hdiv].
  injection Hdiv as <-. exists t. split; [|reflexivity].
  apply elem_of_map_to_list. eapply list_elem_of_lookup_2, He.
Qed.

(** X2: after [loadMusics] the catalog list has exactly one row per
    identifier of the catalog received, and a click on a row asks the
    server to append that identifier, [{hash: h}], then refreshes the
    queue. *)
Theorem catalog_rows_enqueue (data : gmap string Track) (p p' : page) :
  Static.render_musics data p = (p', Normal tt) ->
  NoDup (mi_hash <$> music_list p') /\
  (forall h, is_Some (data !! h) <-> h ∈ mi_hash <$> music_list p') /\
  forall (n : nat) (div : music_item) (q : page),
    music_list p' !! n = Some div ->
    is_Some (data !! mi_hash div) /\
    Static.music_onclick div q
      = (q, Fetch (enqueue_request (mi_hash div)) (fun _ => Static.refreshQueue)).
Proof.
  intros Hrun.
  destruct (render_musics_fields data p) as (p1 & Hrun1 & _ & Hl & _).
  rewrite Hrun in Hrun1. injection Hrun1 as <-.
  assert (Hh : mi_hash <$> music_list p' = (map_to_list data).*1).
  { rewrite Hl, <- list_fmap_compose. reflexivity. }
  assert (Hdom : forall h, is_Some (data !! h) <-> h ∈ mi_hash <$> music_list p').
  { intros h. rewrite Hh, list_elem_of_fmap. split.
    - intros [t Ht]. exists (h, t). split; [reflexivity|].
      now apply elem_of_map_to_list.
    - intros ([h' t] & -> & Hin). exists t. now apply elem_of_map_to_list. }
  split; [rewrite Hh; apply NoDup_fst_map_to_list|]. split; [exact Hdom|].
  intros n div q Hn. split; [|reflexivity].
  apply Hdom. apply list_elem_of_fmap. exists div. split; [reflexivity|].
  eapply list_elem_of_lookup_2, Hn.
Qed.

Lemma catalog_rows_enqueue_witness :
  NoDup (mi_hash <$> music_list (Static.render_musics demo_catalog demo_page).1) /\
  (forall h, is_Some (demo_catalog !! h)
             <-> h ∈ mi_hash <$> music_list (Static.render_musics demo_catalog demo_page).1) /\
  forall (n : nat) (div : music_item) (q : page),
    music_list (Static.render_musics demo_catalog demo_page).1 !! n = Some div ->
    is_Some (demo_catalog !! mi_hash div) /\
    Static.music_onclick div q
      = (q, Fetch (enqueue_request (mi_hash div)) (fun _ => Static.refreshQueue)).
Proof.
  apply (catalog_rows_enqueue demo_catalog demo_page). vm_compute. reflexivity.
Defined.

(** X3: a second [loadMusics] on the same catalog changes nothing: the
    page it leaves is the page it found. *)
Theorem loadMusics_idempotent (data : gmap string Track) (p p' : page) :
  Static.render_musics data p = (p', Normal tt) ->
  Static.render_musics data p' = (p', Normal tt).
Proof.
  intros Hrun.
  destruct (render_musics_fields data p)
    as (p1 & Hrun1 & Hm & Hl & Hq & Hn & Ht & Hs & Hmin).
  rewrite Hrun in Hrun1. injection Hrun1 as <-.
  destruct (render_musics_fields data p')
    as (p2 & Hrun2 & Hm2 & Hl2 & Hq2 & Hn2 & Ht2 & Hs2 & Hmin2).
  rewrite Hrun2. f_equal. apply page_eq; try congruence.
  - rewrite Hs2, Hs. now destruct (last (map_to_list data)).
  - rewrite Hmin2, Hmin. now destruct (last (map_to_list data)).
Qed.

Lemma loadMusics_idempotent_witness :
  Static.render_musics demo_catalog (Static.render_musics demo_catalog demo_page).1
  = ((Static.render_musics demo_catalog demo_page).1, Normal tt).
Proof.
  apply (loadMusics_idempotent demo_catalog demo_page). vm_compute. reflexivity.
Defined.

(** ** The queue list ([refreshQueue]) *)

(** The identifiers of the rendered rows are those of the answer. *)
Lemma render_queue_hashes (data : list string) (p p' : page) :
  Static.render_queue data p = (p', Normal tt) ->
  qi_hash <$> queue_list p' = data.
Proof.
  intros Hrun.
  destruct (render_queue_inv data p p' Hrun) as (_ & Hlen & Hrows).
  apply list_eq; intros k; rewrite list_lookup_fmap.
  destruct (data !! k) as [h|] eqn:Hd.
  - destruct (Hrows k h Hd) as (t & _ & ->). reflexivity.
  - apply lookup_ge_None in Hd. rewrite lookup_ge_None_2 by lia. reflexivity.
Qed.

(** X4: the rendered queue lists the identifiers of the answer in the
    server's order, one row per position, duplicates included, whatever
    was listed before. *)
Theorem queue_rows_in_server_order (data : list string) (p p' : page) :
  Static.render_queue data p = (p', Normal tt) ->
  qi_hash <$> queue_list p' = data /\
  qi_i <$> queue_list p' = seq 0 (length data).
Proof.
  intros Hrun.
  destruct (render_queue_inv data p p' Hrun) as (_ & Hlen & Hrows).
  split; apply list_eq; intros k; rewrite list_lookup_fmap.
  - destruct (data !! k) as [h|] eqn:Hd.
    + destruct (Hrows k h Hd) as (t & _ & ->). reflexivity.
    + apply lookup_ge_None in Hd. rewrite lookup_ge_None_2 by lia. reflexivity.
  - destruct (data !! k) as [h|] eqn:Hd.
    + destruct (Hrows k h Hd) as (t & _ & ->). cbn.
      apply lookup_lt_Some in Hd. symmetry. now apply lookup_seq_lt.
    + apply lookup_ge_None in Hd. rewrite lookup_ge_None_2 by lia.
      symmetry. apply lookup_seq_ge. lia.
Qed.

Lemma queue_rows_in_server_order_witness :
  qi_hash <$> queue_list (Static.render_queue ["a"; "b"; "a"] demo_page).1 = ["a"; "b"; "a"] /\
  qi_i <$> queue_list (Static.render_queue ["a"; "b"; "a"] demo_page).1
    = seq 0 (length ["a"; "b"; "a"]).
Proof.
  apply (queue_rows_in_server_order ["a"; "b"; "a"] demo_page). vm_compute. reflexivity.
Defined.

(** The rows depend on the answer and on the catalog only. *)
Lemma render_queue_rows_determined (data : list string) (p q p1 q1 : page) :
  musics p = musics q ->
  Static.render_queue data p = (p1, Normal tt) ->
  Static.render_queue data q = (q1, Normal tt) ->
  queue_list p1 = queue_list q1.
Proof.
  intros Hm Hp Hq.
  destruct (render_queue_inv data p p1 Hp) as (_ & Hlen1 & Hrows1).
  destruct (render_queue_inv data q q1 Hq) as (_ & Hlen2 & Hrows2).
  apply list_eq. intros k. destruct (data !! k) as [h|] eqn:Hd.
  - destruct (Hrows1 k h Hd) as (t1 & Ht1 & ->).
    destruct (Hrows2 k h Hd) as (t2 & Ht2 & ->).
    rewrite Hm in Ht1. congruence.
  - apply lookup_ge_None in Hd. rewrite !lookup_ge_None_2 by lia. reflexivity.
Qed.

(** The formatter's globals after the rows: those of the last row. *)
Lemma forEach_rows_dur (data : list string) :
  forall (i : nat) (p p' : page),
    forEach_from i Static.queue_row data p = (p', Normal tt) ->
    dur_sec p' = dur_sec_after (last data ≫= fun h => musics p !! h) (dur_sec p) /\
    dur_min p' = dur_min_after (last data ≫= fun h => musics p !! h) (dur_min p).
Proof.
  induction data as [|h data IH]; intros i p p' Hrun.
  - injection Hrun as <-. split; reflexivity.
  - pose proof Hrun as Hall. apply forEach_rows_inv in Hall as (_ & rows & _ & _ & Hrows).
    cbn [forEach_from] in Hrun.
    destruct (Hrows 0%nat h eq_refl) as (t & Hm & _).
    rewrite (bind_normal _ _ _ _ _ (queue_row_found h i p t Hm)) in Hrun.
    apply IH in Hrun as [Hs Hmin]. cbn [musics set_queue_list set_dur_min set_dur_sec
                                          dur_sec dur_min] in Hs, Hmin.
    destruct data as [|h' data].
    + cbn. rewrite Hm. split; [exact Hs|exact Hmin].
    + rewrite last_cons_cons.
      destruct (last (h' :: data)) as [hl|] eqn:Hlast;
        [|now apply last_None in Hlast].
      rewrite last_lookup in Hlast.
      destruct (Hrows (S (pred (length (h' :: data)))) hl Hlast) as (tl & Htl & _).
      cbn [mbind option_bind] in *. rewrite Htl in *. split; [exact Hs|exact Hmin].
Qed.

Lemma render_queue_dur (data : list string) (p p' : page) :
  Static.render_queue data p = (p', Normal tt) ->
  dur_sec p' = dur_sec_after (last data ≫= fun h => musics p !! h) (dur_sec p) /\
  dur_min p' = dur_min_after (last data ≫= fun h => musics p !! h) (dur_min p).
Proof.
  unfold Static.render_queue, forEach. intros Hrun.
  rewrite (bind_normal _ _ p (set_queue_list [] p) tt eq_refl) in Hrun.
  exact (forEach_rows_dur data 0 _ p' Hrun).
Qed.

(** *** A whole refresh, taken apart and put together *)

Lemma refresh_run_inv (server : request -> response) (p p2 : page) (rs : list request) :
  run_to_end server (Static.refreshQueue p).2 p = (p2, Normal tt, rs) ->
  exists data npData p1,
    server (mk_get "/api/queue") = RespQueue data /\
    server (mk_get "/api/current") = RespCurrent npData /\
    Static.render_queue data p = (p1, Normal tt) /\
    Static.update_now_playing npData p1 = (p2, Normal tt) /\
    rs = [mk_get "/api/queue"; mk_get "/api/current"].
Proof.
  cbn [Static.refreshQueue snd run_to_end]. intros Hrun.
  destruct (server (mk_get "/api/queue")) as [| data | | |] eqn:Hq;
    try (cbn in Hrun; discriminate Hrun).
  destruct (Static.render_queue data p) as [p1 [[]|e]] eqn:Hr;
    [|cbn in Hrun; discriminate Hrun].
  cbn [run_to_end] in Hrun.
  destruct (server (mk_get "/api/current")) as [| | npData | |] eqn:Hc;
    try (cbn in Hrun; discriminate Hrun).
  unfold settle in Hrun.
  destruct (Static.update_now_playing npData p1) as [p2' o] eqn:Hnp.
  cbn in Hrun. injection Hrun as -> -> <-.
  exists data, npData, p1. repeat split; assumption.
Qed.

(** X5: a refresh repeated against an unchanged server and catalog renders
    the very same page again: if a refresh completes from [p] to [p'], a
    refresh from [p'] completes in [p'], with the same two reads. *)
Theorem refreshQueue_idempotent (server : request -> response) (p p' : page)
    (rs : list request) :
  run_to_end server (Static.refreshQueue p).2 p = (p', Normal tt, rs) ->
  run_to_end server (Static.refreshQueue p').2 p' = (p', Normal tt, rs).
Proof.
  intros Hrun.
  destruct (refresh_run_inv server p p' rs Hrun)
    as (data & npData & p1 & Hq & Hc & Hr & Hnp & ->).
  destruct (render_queue_inv data p p1 Hr) as ((Hm1 & Hl1 & Hn1 & Ht1) & _ & Hrows).
  destruct (render_queue_dur data p p1 Hr) as [Hs1 Hmin1].
  (* the status refresh that completed *)
  assert (Hp' : musics p' = musics p1 /\ music_list p' = music_list p1 /\
                queue_list p' = queue_list p1).
  { destruct (JS.truthy (hash npData)) eqn:Htruthy.
    - destruct (musics p1 !! hash npData) as [t|] eqn:Ht.
      + rewrite (static_now_playing_track npData p1 t Htruthy Ht) in Hnp.
        injection Hnp as Heq. rewrite <- Heq. repeat split.
      + destruct (static_now_playing_missing npData p1 Htruthy Ht) as (x & Hx & _).
        rewrite Hx in Hnp. discriminate Hnp.
    - apply truthy_empty in Htruthy.
      rewrite (static_now_playing_nothing npData p1 Htruthy) in Hnp.
      injection Hnp as Heq. rewrite <- Heq. repeat split. }
  destruct Hp' as (Hm' & Hl' & Hq').
  (* the second rendering of the queue *)
  destruct (render_queue_complete data p') as (p1' & Hr').
  { intros h Hin. apply list_elem_of_lookup in Hin as [k Hk].
    destruct (Hrows k h Hk) as (t & Ht & _). exists t. congruence. }
  destruct (render_queue_inv data p' p1' Hr') as ((Hm2 & Hl2 & Hn2 & Ht2) & _ & _).
  destruct (render_queue_dur data p' p1' Hr') as [Hs2 Hmin2].
  assert (Hrows' : queue_list p1' = queue_list p1).
  { apply (render_queue_rows_determined data p' p p1' p1); [congruence|assumption..]. }
  apply (refresh_run_intro server data npData p' p1' p' (Normal tt) Hq Hc Hr').
  (* the second status refresh *)
  destruct (JS.truthy (hash npData)) eqn:Htruthy.
  - destruct (musics p1 !! hash npData) as [t|] eqn:Ht.
    + rewrite (static_now_playing_track npData p1 t Htruthy Ht) in Hnp.
      rewrite (static_now_playing_track npData p1' t Htruthy) by congruence.
      injection Hnp as Heq. f_equal. rewrite <- Heq.
      apply page_eq; cbn; congruence.
    + destruct (static_now_playing_missing npData p1 Htruthy Ht) as (x & Hx & _).
      rewrite Hx in Hnp. discriminate Hnp.
  - apply truthy_empty in Htruthy.
    rewrite (static_now_playing_nothing npData p1 Htruthy) in Hnp.
    rewrite (static_now_playing_nothing npData p1' Htruthy).
    injection Hnp as Heq. f_equal.
    assert (Hds : dur_sec p' = dur_sec p1) by (rewrite <- Heq; reflexivity).
    assert (Hdm : dur_min p' = dur_min p1) by (rewrite <- Heq; reflexivity).
    assert (Hlast : (last data ≫= fun h => musics p' !! h)
                    = (last data ≫= fun h => musics p !! h)).
    { rewrite Hm'. now rewrite Hm1. }
    rewrite <- Heq. apply page_eq; cbn; try congruence.
    + rewrite Hs2, Hlast, Hds, Hs1.
      now destruct (last data ≫= fun h => musics p !! h).
    + rewrite Hmin2, Hlast, Hdm, Hmin1.
      now destruct (last data ≫= fun h => musics p !! h).
Qed.

Lemma refreshQueue_idempotent_witness :
  let server := fun r : request =>
    if String.eqb (path r) "/api/queue" then RespQueue ["a"; "b"; "a"]
    else RespCurrent {| hash := "a"; paused := false; position := 42; cur_duration := 125 |} in
  let p' := (run_to_end server (Static.refreshQueue demo_page).2 demo_page).1.1 in
  run_to_end server (Static.refreshQueue p').2 p'
  = (p', Normal tt, [mk_get "/api/queue"; mk_get "/api/current"]).
Proof.
  cbv zeta.
  apply (refreshQueue_idempotent _ demo_page). vm_compute. reflexivity.
Defined.

(** X6: a drop whose drag carries no text/plain data, or an empty one (a
    drag that did not start on a queue row), still issues the reorder
    request, with [from] serialised as [null] and [to] the position of the
    row dropped on: the handler does not check what it read. *)
Theorem drop_of_foreign_drag_sends_null
    (data : list string) (p p' : page) (j : nat) (dj : queue_item)
    (dt : dataTransfer) (q : page) :
  Static.render_queue data p = (p', Normal tt) ->
  queue_list p' !! j = Some dj ->
  getData "text/plain" dt = EmptyString ->
  Static.drop dj dt q
  = (q, Fetch (mk_req POST "/api/queue/reorder"
                 (JObject [("from", JNull); ("to", JNumber (Z.of_nat j))]))
          (fun _ => Static.refreshQueue)).
Proof.
  intros Hrun Hj Hempty.
  destruct (rendered_row_position data p p' j dj Hrun Hj) as (_ & Hto & _).
  unfold Static.drop. rewrite Hempty, Hto, parseInt_toString. reflexivity.
Qed.

Lemma drop_of_foreign_drag_sends_null_witness :
  Static.drop (static_row "b" 1 {| name := "Beta"; duration := 59 |}) ∅ demo_page
  = (demo_page, Fetch (mk_req POST "/api/queue/reorder"
                         (JObject [("from", JNull); ("to", JNumber 1)]))
                  (fun _ => Static.refreshQueue)).
Proof.
  apply (drop_of_foreign_drag_sends_null ["a"; "b"; "c"] demo_page
           (Static.render_queue ["a"; "b"; "c"] demo_page).1 1);
    vm_compute; reflexivity.
Defined.

(** X7: when every identifier of the queue is in the catalog but the
    current identifier, which is not empty and not a name every object
    inherits, is not, the refresh renders all the rows, reads the status,
    and then ends in a [TypeError] with the now-playing line and the title
    left as they were. *)
Theorem refresh_with_unknown_current
    (server : request -> response) (data : list string) (npData : Current) (p : page) :
  server (mk_get "/api/queue") = RespQueue data ->
  server (mk_get "/api/current") = RespCurrent npData ->
  (forall h, h ∈ data -> is_Some (musics p !! h)) ->
  hash npData <> EmptyString ->
  JS.inherited_key (hash npData) = false ->
  musics p !! hash npData = None ->
  exists p',
    run_to_end server (Static.refreshQueue p).2 p
      = (p', Thrown undefined_property, [mk_get "/api/queue"; mk_get "/api/current"]) /\
    qi_hash <$> queue_list p' = data /\
    now_playing p' = now_playing p /\ title p' = title p.
Proof.
  intros Hq Hc Hall Hne _ Hm.
  destruct (render_queue_complete data p Hall) as (p1 & Hrun).
  destruct (render_queue_inv data p p1 Hrun) as ((Hm1 & _ & Hn1 & Ht1) & _ & _).
  pose proof (render_queue_hashes data p p1 Hrun) as Hrows.
  assert (Htruthy : JS.truthy (hash npData) = true).
  { destruct (JS.truthy (hash npData)) eqn:E; [reflexivity|].
    now apply truthy_empty in E. }
  destruct (static_now_playing_missing npData p1 Htruthy) as (p2 & Hnp & Hn2 & Ht2 & Hq2);
    [congruence|].
  exists p2. split; [exact (refresh_run_intro server data npData p p1 p2 _ Hq Hc Hrun Hnp)|].
  split; [now rewrite Hq2|]. split; congruence.
Qed.

Lemma refresh_with_unknown_current_witness :
  exists p',
    run_to_end
      (fun r : request =>
         if String.eqb (path r) "/api/queue" then RespQueue ["a"; "b"]
         else RespCurrent {| hash := "zz"; paused := true; position := 3;
                             cur_duration := 10 |})
      (Static.refreshQueue demo_page).2 demo_page
      = (p', Thrown undefined_property, [mk_get "/api/queue"; mk_get "/api/current"]) /\
    qi_hash <$> queue_list p' = ["a"; "b"] /\
    now_playing p' = now_playing demo_page /\ title p' = title demo_page.
Proof.
  apply (refresh_with_unknown_current
           (fun r : request =>
              if String.eqb (path r) "/api/queue" then RespQueue ["a"; "b"]
              else RespCurrent {| hash := "zz"; paused := true; position := 3;
                                  cur_duration := 10 |})
           ["a"; "b"]
           {| hash := "zz"; paused := true; position := 3; cur_duration := 10 |}
           demo_page).
  - reflexivity.
  - reflexivity.
  - intros h Hin. apply list_elem_of_In in Hin. cbn in Hin.
    destruct Hin as [<-|[<-|[]]]; vm_compute; eauto.
  - discriminate.
  - reflexivity.
  - vm_compute. reflexivity.
Defined.

(** ** Sessions of [script.js] *)

(** X8: the script starts both reads at once with an empty catalog
    ([let musics = {}]); if the queue is answered before the catalog and
    starts with an identifier (a string that is not a name every object
    inherits), that refresh is rejected: no row is shown, the status is
    not even read, the now-playing line and the title keep the text of the
    markup. *)
Theorem first_refresh_before_catalog_rejects
    (np0 title0 h : string) (data : list string) :
  JS.inherited_key h = false ->
  let w := step StaticPage.handlers (StaticPage.loaded (initial_page np0 title0))
             (Ev_response 1 (RespQueue (h :: data))) in
  unhandled w = [undefined_property] /\
  queue_list (doc w) = [] /\
  now_playing (doc w) = np0 /\ title (doc w) = title0 /\
  sent w = [mk_get "/api/musics"; mk_get "/api/queue"] /\
  fst <$> pending w = [mk_get "/api/musics"].
Proof.
  intros _. cbv zeta.
  assert (Hrun : Static.render_queue (h :: data) (initial_page np0 title0)
                 = (initial_page np0 title0, Thrown undefined_property)).
  { unfold Static.render_queue, forEach.
    rewrite (bind_normal _ _ _ (set_queue_list [] (initial_page np0 title0)) tt eq_refl).
    cbn [forEach_from]. apply bind_thrown.
    apply queue_row_missing. apply lookup_empty. }
  cbn [step StaticPage.loaded StaticPage.main boot spawn setTimeout resume
       Static.loadMusics Static.refreshQueue set_timers set_doc set_pending log_sent
       pending doc lookup list_lookup app].
  rewrite Hrun. repeat split.
Qed.

Lemma first_refresh_before_catalog_rejects_witness :
  let w := step StaticPage.handlers (StaticPage.loaded (initial_page "Nothing" "MusiSync"))
             (Ev_response 1 (RespQueue ("a" :: ["b"]))) in
  unhandled w = [undefined_property] /\
  queue_list (doc w) = [] /\
  now_playing (doc w) = "Nothing" /\ title (doc w) = "MusiSync" /\
  sent w = [mk_get "/api/musics"; mk_get "/api/queue"] /\
  fst <$> pending w = [mk_get "/api/musics"].
Proof.
  apply (first_refresh_before_catalog_rejects "Nothing" "MusiSync" "a" ["b"]).
  reflexivity.
Defined.

Lemma refreshQueue_eq (p : page) :
  Static.refreshQueue p = (p, Fetch (mk_get "/api/queue") queue_answer).
Proof. reflexivity. Qed.

(** The answer to a queue read whose rows can all be rendered, with
    what is sent next. *)
Lemma answered_queue_read (sc : script) (w : world) (n : nat) (r : request)
    (data : list string) :
  pending w !! n = Some (r, queue_answer) ->
  (forall x, x ∈ data -> is_Some (musics (doc w) !! x)) ->
  let w' := step sc w (Ev_response n (RespQueue data)) in
  qi_hash <$> queue_list (doc w') = data /\
  sent w' = (sent w ++ [mk_get "/api/current"])%list /\
  unhandled w' = unhandled w.
Proof.
  intros Hn Hall. cbv zeta.
  destruct (render_queue_complete data (doc w) Hall) as (p1 & Hrun).
  cbn [step]. rewrite Hn.
  unfold queue_answer. cbn [Static.refreshQueue snd]. rewrite Hrun.
  cbn [resume set_doc set_pending log_sent doc pending unhandled sent].
  split; [exact (render_queue_hashes data (doc w) p1 Hrun)|]. split; reflexivity.
Qed.

(** A handler that sends one request and refreshes the queue on the
    answer: the page is not touched before the answer, nor by it, and the
    answer to the read that follows is rendered. *)
Lemma spawn_request_then_refresh (t : Task) (r : request) (w : world) :
  (forall p, t p = (p, Fetch r (fun _ => Static.refreshQueue))) ->
  let w1 := spawn t w in
  doc w1 = doc w /\ sent w1 = (sent w ++ [r])%list /\
  pending w1 = (pending w ++ [(r, fun _ => Static.refreshQueue)])%list /\
  forall res : response,
    let w2 := step StaticPage.handlers w1 (Ev_response (length (pending w)) res) in
    sent w2 = (sent w ++ [r; mk_get "/api/queue"])%list /\ doc w2 = doc w /\
    pending w2 = (pending w ++ [(mk_get "/api/queue", queue_answer)])%list /\
    forall data' : list string,
      (forall x, x ∈ data' -> is_Some (musics (doc w) !! x)) ->
      let w3 := step StaticPage.handlers w2
                  (Ev_response (length (pending w)) (RespQueue data')) in
      qi_hash <$> queue_list (doc w3) = data' /\
      sent w3 = (sent w ++ [r; mk_get "/api/queue"; mk_get "/api/current"])%list.
Proof.
  intros Ht w1.
  assert (Hw1 : w1 = log_sent r (set_pending
                       (pending w ++ [(r, fun _ => Static.refreshQueue)]) (set_doc (doc w) w))).
  { unfold w1, spawn. now rewrite Ht. }
  clearbody w1. subst w1.
  split; [reflexivity|]. split; [reflexivity|]. split; [reflexivity|].
  intros res w2.
  assert (Hw2 : w2 = log_sent (mk_get "/api/queue")
                       (set_pending (pending w ++ [(mk_get "/api/queue", queue_answer)])
                          (set_doc (doc w) (log_sent r w)))).
  { unfold w2. cbn [step set_doc set_pending log_sent pending doc].
    rewrite list_lookup_middle by reflexivity.
    rewrite (delete_middle (pending w) []), app_nil_r.
    rewrite refreshQueue_eq. reflexivity. }
  clearbody w2. subst w2.
  split; [cbn; now rewrite <- app_assoc|]. split; [reflexivity|]. split; [reflexivity|].
  intros data' Hall w3.
  destruct (answered_queue_read StaticPage.handlers
              (log_sent (mk_get "/api/queue")
                 (set_pending (pending w ++ [(mk_get "/api/queue", queue_answer)])
                    (set_doc (doc w) (log_sent r w))))
              (length (pending w)) (mk_get "/api/queue") data')
    as (Hrows & Hsent & _).
  { cbn [pending log_sent set_pending]. now apply list_lookup_middle. }
  { exact Hall. }
  fold w3 in Hrows, Hsent.
  split; [exact Hrows|]. rewrite Hsent. cbn. now rewrite <- !app_assoc.
Qed.

(** X9: every user action of [script.js] that changes the server's state
    and finds its row sends exactly one request, which is not a read and
    is the one of the action (enqueue and delete with the identifier of
    the row, reorder with two values, play, pause), and leaves the page as
    it is: nothing is reordered, removed or added locally.  When the
    request is answered, whatever the answer, the script reads the queue
    again, and once that read is answered the list shows the queue the
    server answered with and the status is read.  Play and pause always
    send; an action on a row that does not exist does nothing. *)
Theorem mutation_then_refresh (w : world) (e : event) :
  is_mutation e = true ->
  let w1 := step StaticPage.handlers w e in
  if mutation_enabled w e then
    exists r : request,
      mutation_sends w e r /\
      method r <> GET /\ doc w1 = doc w /\ sent w1 = (sent w ++ [r])%list /\
      pending w1 = (pending w ++ [(r, fun _ => Static.refreshQueue)])%list /\
      forall res : response,
        let w2 := step StaticPage.handlers w1 (Ev_response (length (pending w)) res) in
        sent w2 = (sent w ++ [r; mk_get "/api/queue"])%list /\ doc w2 = doc w /\
        pending w2 = (pending w ++ [(mk_get "/api/queue", queue_answer)])%list /\
        forall data' : list string,
          (forall x, x ∈ data' -> is_Some (musics (doc w) !! x)) ->
          let w3 := step StaticPage.handlers w2
                      (Ev_response (length (pending w)) (RespQueue data')) in
          qi_hash <$> queue_list (doc w3) = data' /\
          sent w3 = (sent w ++ [r; mk_get "/api/queue"; mk_get "/api/current"])%list
  else w1 = w.
Proof.
  intros He. cbv zeta.
  destruct e as [n res|n|ms|n|n|n|n|n|b| |]; try discriminate He;
    cbn [step mutation_enabled mutation_sends].
  - destruct (music_list (doc w) !! n) as [div|] eqn:Hn.
    + rewrite bool_decide_eq_true_2 by eauto.
      exists (enqueue_request (mi_hash div)). split; [eauto|]. split; [discriminate|].
      apply (spawn_request_then_refresh
               (on_music_click StaticPage.handlers div) _ w). reflexivity.
    + rewrite bool_decide_eq_false_2 by (intros [? ?]; discriminate). reflexivity.
  - destruct (queue_list (doc w) !! n) as [div|] eqn:Hn.
    + rewrite bool_decide_eq_true_2 by eauto.
      exists (delete_request (qi_hash div)). split; [eauto|]. split; [discriminate|].
      apply (spawn_request_then_refresh
               (on_delete_click StaticPage.handlers div) _ w). reflexivity.
    + rewrite bool_decide_eq_false_2 by (intros [? ?]; discriminate). reflexivity.
  - destruct (queue_list (doc w) !! n) as [div|] eqn:Hn.
    + rewrite bool_decide_eq_true_2 by eauto.
      eexists. split; [do 2 eexists; reflexivity|]. split; [discriminate|].
      apply (spawn_request_then_refresh
               (on_drop StaticPage.handlers div (drag w)) _ w). reflexivity.
    + rewrite bool_decide_eq_false_2 by (intros [? ?]; discriminate). reflexivity.
  - exists (mk_post "/api/play"). split; [reflexivity|]. split; [discriminate|].
    apply (spawn_request_then_refresh (fn_play StaticPage.handlers) _ w). reflexivity.
  - exists (mk_post "/api/pause"). split; [reflexivity|]. split; [discriminate|].
    apply (spawn_request_then_refresh (fn_pause StaticPage.handlers) _ w). reflexivity.
Qed.

Lemma mutation_then_refresh_witness :
  let w := boot demo_page in
  let w1 := step StaticPage.handlers w Ev_play in
  exists r : request,
    mutation_sends w Ev_play r /\
    method r <> GET /\ doc w1 = doc w /\ sent w1 = (sent w ++ [r])%list /\
    pending w1 = (pending w ++ [(r, fun _ => Static.refreshQueue)])%list /\
    forall res : response,
      let w2 := step StaticPage.handlers w1 (Ev_response (length (pending w)) res) in
      sent w2 = (sent w ++ [r; mk_get "/api/queue"])%list /\ doc w2 = doc w /\
      pending w2 = (pending w ++ [(mk_get "/api/queue", queue_answer)])%list /\
      forall data' : list string,
        (forall x, x ∈ data' -> is_Some (musics (doc w) !! x)) ->
        let w3 := step StaticPage.handlers w2
                    (Ev_response (length (pending w)) (RespQueue data')) in
        qi_hash <$> queue_list (doc w3) = data' /\
        sent w3 = (sent w ++ [r; mk_get "/api/queue"; mk_get "/api/current"])%list.
Proof. apply (mutation_then_refresh (boot demo_page) Ev_play). reflexivity. Defined.

(** *** What can change the page *)







(** *** The requests of a session *)





(** *** Timers *)

Lemma timers_due_resume (pa : page * Async) (w : world) :
  timers_due w -> timers_due (resume pa w).
Proof.
  unfold timers_due. destruct (resume_keeps pa w) as (-> & -> & -> & _). auto.
Qed.

Lemma timers_due_step (sc : script) (w : world) (e : event) :
  timers_due w -> timers_due (step sc w e).
Proof.
  intros Hw. destruct e as [n res|n|ms|n|n|n|n|n|b| |]; cbn [step];
    try (apply timers_due_resume; exact Hw); try exact Hw.
  - destruct (pending w !! n) as [[r k]|]; [|exact Hw].
    apply timers_due_resume. exact Hw.
  - destruct (pending w !! n); exact Hw.
  - destruct Hw as [Htim Hfired]. split; [exact Htim|]. cbn.
    eapply Forall_impl; [exact Hfired|]. cbn. intros j Hj. lia.
  - destruct (timers w !! n) as [t|] eqn:Hn; [|exact Hw].
    destruct (due t <=? now w)%N eqn:Hdue; [|exact Hw].
    apply timers_due_resume. destruct Hw as [Htim Hfired].
    destruct (proj1 (Forall_lookup _ _) Htim n t Hn) as [Hone Hdelay].
    unfold timers_due, rearm. cbn. rewrite Hone. split.
    + now apply Forall_delete.
    + apply Forall_app. split; [exact Hfired|].
      constructor; [|constructor]. rewrite <- Hdelay. now apply N.leb_le.
  - destruct (music_list (doc w) !! n); [apply timers_due_resume|]; exact Hw.
  - destruct (queue_list (doc w) !! n); [apply timers_due_resume|]; exact Hw.
  - destruct (queue_list (doc w) !! n); exact Hw.
  - destruct (queue_list (doc w) !! n); [apply timers_due_resume|]; exact Hw.
Qed.

Lemma timers_due_steps (sc : script) (evs : list event) :
  forall w, timers_due w -> timers_due (steps sc w evs).
Proof.
  induction evs as [|e evs IH]; intros w Hw; [exact Hw|].
  apply IH, timers_due_step, Hw.
Qed.

(** X12: in any session of [script.js] a timer-driven catalog refresh has
    happened only if at least 5000 ms have passed since the load, and a
    timer-driven queue refresh only if at least 1000 ms have. *)
Theorem timer_refresh_not_before_delay (p : page) (evs : list event) :
  let w := steps StaticPage.handlers (StaticPage.loaded p) evs in
  Forall (fun j => (job_delay j <= now w)%N) (fired w).
Proof.
  cbv zeta. apply timers_due_steps.
  split; cbn; repeat constructor.
Qed.

(** ** Sessions of [part_000] *)

(** X13: [part_000] registers no timer: in any of its sessions no timer
    exists and none ever runs, so after the load every request follows a
    user action or an answer. *)
Theorem legacy_has_no_timer (p : page) (evs : list event) :
  timers (steps LegacyPage.handlers (LegacyPage.loaded p) evs) = [] /\
  fired (steps LegacyPage.handlers (LegacyPage.loaded p) evs) = [].
Proof.
  assert (Hstep : forall w e, timers w = [] /\ fired w = [] ->
            timers (step LegacyPage.handlers w e) = [] /\
            fired (step LegacyPage.handlers w e) = []).
  { intros w e [Ht Hf].
    assert (Hres : forall pa, timers (resume pa w) = [] /\ fired (resume pa w) = []).
    { intros pa. destruct (resume_keeps pa w) as (-> & -> & _). now split. }
    destruct e as [n res|n|ms|n|n|n|n|n|b| |]; cbn [step]; try apply Hres;
      try (split; assumption).
    - destruct (pending w !! n) as [[r k]|]; [|now split].
      destruct (resume_keeps (k res (doc w)) (set_pending (delete n (pending w)) w))
        as (-> & -> & _). now split.
    - destruct (pending w !! n); now split.
    - rewrite Ht. cbn. now split.
    - destruct (music_list (doc w) !! n); [apply Hres|now split].
    - destruct (queue_list (doc w) !! n); [apply Hres|now split].
    - destruct (queue_list (doc w) !! n); now split.
    - destruct (queue_list (doc w) !! n); [apply Hres|now split]. }
  assert (Hsteps : forall evs' w, timers w = [] /\ fired w = [] ->
            timers (steps LegacyPage.handlers w evs') = [] /\
            fired (steps LegacyPage.handlers w evs') = []).
  { induction evs' as [|e evs' IH]; intros w Hw; [exact Hw|].
    apply IH, Hstep, Hw. }
  apply Hsteps. split; reflexivity.
Qed.

(** X14: [refreshQueue] of [part_000] never completes: whatever the server
    answers and whatever the page holds, it ends in an exception (a
    missing identifier, or line 87 at the latest). *)
Theorem legacy_refresh_always_rejects (server : request -> response) (p : page) :
  exists e, (run_to_end server (Legacy.refreshQueue p).2 p).1.2 = Thrown e.
Proof.
  cbn [Legacy.refreshQueue snd run_to_end].
  destruct (server (mk_get "/api/queue")) as [| data | | |];
    try (cbn; eauto; fail).
  destruct (Legacy.render_queue data p) as [p1 [[]|e]]; [|cbn; eauto].
  cbn [run_to_end].
  destruct (server (mk_get "/api/current")) as [| | npData | |];
    try (cbn; eauto; fail).
  unfold settle.
  destruct (legacy_now_playing_throws npData p1) as (e & He & _).
  destruct (Legacy.update_now_playing npData p1) as [p2 o]. cbn in *.
  subst o. eauto.
Qed.

(** ** The width of the duration string *)

(** From ten on a number is written as it is. *)
Lemma pad2_from_ten (n : Z) :
  10 <= n -> Spec.pad2 n = pretty_N_go (Z.to_N n) EmptyString.
Proof.
  intros Hn. destruct n as [|x|x]; try lia.
  unfold Spec.pad2, JS.Number_toString, JS.padStart.
  change (pretty (Zpos x)) with (pretty (Npos x)).
  unfold pretty, pretty_N. rewrite decide_False by discriminate.
  assert (Hlen : (2 <= String.length (pretty_N_go (Npos x) EmptyString))%nat).
  { rewrite pretty_N_go_step by lia.
    rewrite pretty_N_go_step by (apply N.div_str_pos; lia).
    etransitivity; [|apply pretty_N_go_length]. cbn. lia. }
  replace (2 - String.length (pretty_N_go (Npos x) EmptyString))%nat with 0%nat by lia.
  reflexivity.
Qed.

Lemma pad2_width (n : Z) :
  0 <= n ->
  (2 <= String.length (Spec.pad2 n))%nat /\
  (String.length (Spec.pad2 n) = 2%nat <-> n < 100).
Proof.
  intros Hn. destruct (decide (n < 10)) as [Hsmall|Hbig].
  - rewrite pad2_small by lia. cbn. split; [lia|]. split; [lia|reflexivity].
  - rewrite pad2_from_ten by lia.
    assert (Hx : (10 <= Z.to_N n)%N) by lia.
    set (x := Z.to_N n) in *.
    assert (Hx1 : (0 < x `div` 10)%N) by (apply N.div_str_pos; lia).
    rewrite pretty_N_go_step by lia.
    rewrite pretty_N_go_step by exact Hx1.
    destruct (decide (n < 100)) as [Hlt|Hge].
    + assert (Hdiv : ((x `div` 10) `div` 10 = 0)%N).
      { apply N.div_small. apply N.Div0.div_lt_upper_bound. lia. }
      rewrite Hdiv, pretty_N_go_0. cbn. split; [lia|]. split; [intros _; exact Hlt|reflexivity].
    + assert (Hx2 : (0 < (x `div` 10) `div` 10)%N).
      { apply N.div_str_pos. split; [lia|].
        apply N.div_le_lower_bound; lia. }
      rewrite pretty_N_go_step by exact Hx2.
      match goal with
      | |- context [pretty_N_go ?y ?s] =>
          pose proof (pretty_N_go_length y s) as Hlen; cbn [String.length] in Hlen
      end.
      split; [lia|]. split; [lia|intros Hlt; lia].
Qed.

(** X15: for a duration of whole seconds, [fancytime] returns minutes, a
    colon and seconds, where the seconds always take two characters and
    the minutes at least two; the whole string has the five characters of
    mm:ss exactly when the duration is below 3980 seconds, where the
    minutes shown reach 100. *)
Theorem fancytime_width (s : Z) (p : page) :
  0 <= s ->
  exists mm ss : string,
    (Static.fancytime s p).2 = Normal (mm ++ ":" ++ ss) /\
    String.length ss = 2%nat /\
    (2 <= String.length mm)%nat /\
    (String.length mm = 2%nat <-> s < 3980).
Proof.
  intros Hs. exists (minutes_field s), (seconds_field s).
  split; [now rewrite fancytime_eq|].
  unfold minutes_field, seconds_field, JS.Math_round_rem, JS.Math_round_div.
  fold (Spec.pad2 (Z.rem s 60)). fold (Spec.pad2 ((2 * s + 40) / (2 * 40))).
  assert (Hrem : 0 <= Z.rem s 60 < 60).
  { rewrite Z.rem_mod_nonneg by lia. apply Z.mod_pos_bound. lia. }
  assert (Hmin : 0 <= (2 * s + 40) / (2 * 40)) by (apply Z.div_pos; lia).
  destruct (pad2_width (Z.rem s 60)) as [_ Hsec]; [lia|].
  destruct (pad2_width ((2 * s + 40) / (2 * 40)) Hmin) as [Hge Hiff].
  split; [apply Hsec; lia|]. split; [exact Hge|].
  rewrite Hiff. Z.to_euclidean_division_equations. lia.
Qed.

Lemma fancytime_width_witness :
  exists mm ss : string,
    (Static.fancytime 125 demo_page).2 = Normal (mm ++ ":" ++ ss) /\
    String.length ss = 2%nat /\
    (2 <= String.length mm)%nat /\
    (String.length mm = 2%nat <-> 125 < 3980).
Proof. apply (fancytime_width 125 demo_page). lia. Defined.

(** ** The status display of [script.js] *)

(** X17: with nothing playing, or with a current track of the catalog,
    the status refresh of [script.js] does not throw and touches neither
    the catalog nor the two lists; it shows Nothing and the title
    MusiSync in the first case, and in the second the glyph, the elapsed
    position, the label made of the track's name and of the duration the
    status carries, and the title MusiSync - name. *)
Theorem static_status_display (npData : Current) (p : page) :
  hash npData = EmptyString \/ is_Some (musics p !! hash npData) ->
  exists p',
    Static.update_now_playing npData p = (p', Normal tt) /\
    musics p' = musics p /\ music_list p' = music_list p /\
    queue_list p' = queue_list p /\
    (hash npData = EmptyString ->
       now_playing p' = "Nothing" /\ title p' = "MusiSync") /\
    (forall t, hash npData <> EmptyString -> musics p !! hash npData = Some t ->
       now_playing p'
         = pause_icon npData ++ " "
             ++ (minutes_field (position npData) ++ ":" ++ seconds_field (position npData))
             ++ " | " ++ static_label (name t) (hash npData) (cur_duration npData) /\
       title p' = "MusiSync - " ++ name t).
Proof.
  intros Hcur. destruct (JS.truthy (hash npData)) eqn:Htruthy.
  - destruct Hcur as [He|[t Ht]].
    + rewrite He in Htruthy. discriminate Htruthy.
    + rewrite (static_now_playing_track npData p t Htruthy Ht).
      eexists. split; [reflexivity|]. cbn.
      split; [reflexivity|]. split; [reflexivity|]. split; [reflexivity|]. split.
      * intros He. rewrite He in Htruthy. discriminate Htruthy.
      * intros t0 _ Ht0. assert (t0 = t) by congruence. subst t0.
        split; reflexivity.
  - apply truthy_empty in Htruthy.
    rewrite (static_now_playing_nothing npData p Htruthy).
    eexists. split; [reflexivity|]. cbn.
    split; [reflexivity|]. split; [reflexivity|]. split; [reflexivity|]. split.
    + intros _. split; reflexivity.
    + intros t0 Hne. contradiction.
Qed.

Lemma static_status_display_witness :
  exists p',
    Static.update_now_playing
      {| hash := "a"; paused := false; position := 42; cur_duration := 125 |} demo_page
      = (p', Normal tt) /\
    musics p' = musics demo_page /\ music_list p' = music_list demo_page /\
    queue_list p' = queue_list demo_page /\
    (hash {| hash := "a"; paused := false; position := 42; cur_duration := 125 |} = EmptyString ->
       now_playing p' = "Nothing" /\ title p' = "MusiSync") /\
    (forall t,
       hash {| hash := "a"; paused := false; position := 42; cur_duration := 125 |} <> EmptyString ->
       musics demo_page
         !! hash {| hash := "a"; paused := false; position := 42; cur_duration := 125 |} = Some t ->
       now_playing p'
         = pause_icon {| hash := "a"; paused := false; position := 42; cur_duration := 125 |}
             ++ " " ++ (minutes_field 42 ++ ":" ++ seconds_field 42)
             ++ " | " ++ static_label (name t) "a" 125 /\
       title p' = "MusiSync - " ++ name t).
Proof.
  apply (static_status_display
           {| hash := "a"; paused := false; position := 42; cur_duration := 125 |} demo_page).
  right. vm_compute. eauto.
Defined.

(** ** Overlapping refreshes *)

(** The answer to a queue read whose rows can all be rendered. *)
Lemma answer_queue_read (sc : script) (w : world) (n : nat) (r : request)
    (data : list string) (p1 : page) :
  pending w !! n = Some (r, queue_answer) ->
  Static.render_queue data (doc w) = (p1, Normal tt) ->
  let w' := step sc w (Ev_response n (RespQueue data)) in
  doc w' = p1 /\ unhandled w' = unhandled w /\
  exists kc, pending w' = (delete n (pending w) ++ [(mk_get "/api/current", kc)])%list.
Proof.
  intros Hn Hrun. cbv zeta. cbn [step]. rewrite Hn.
  unfold queue_answer. cbn [Static.refreshQueue snd]. rewrite Hrun.
  cbn [resume set_doc set_pending log_sent doc pending unhandled].
  split; [reflexivity|]. split; [reflexivity|]. eexists. reflexivity.
Qed.

(** X18: when two queue refreshes are under way and the one started last
    is answered first, the queue shown in the end is the one of the answer
    that arrived last: the rows of the earlier answer are replaced
    wholesale. *)
Theorem last_answer_wins (w0 : world) (dataA dataB : list string) :
  (forall h, h ∈ dataA -> is_Some (musics (doc w0) !! h)) ->
  (forall h, h ∈ dataB -> is_Some (musics (doc w0) !! h)) ->
  let n := length (pending w0) in
  let w := spawn Static.refreshQueue (spawn Static.refreshQueue w0) in
  let wB := step StaticPage.handlers w (Ev_response (S n) (RespQueue dataB)) in
  let wA := step StaticPage.handlers wB (Ev_response n (RespQueue dataA)) in
  qi_hash <$> queue_list (doc wB) = dataB /\
  qi_hash <$> queue_list (doc wA) = dataA /\
  unhandled wA = unhandled w0.
Proof.
  intros HA HB. cbv zeta.
  destruct (render_queue_complete dataB (doc w0) HB) as (pB & HrB).
  destruct (render_queue_inv dataB (doc w0) pB HrB) as ((HmB & _) & _ & _).
  destruct (render_queue_complete dataA pB) as (pA & HrA).
  { intros h Hin. rewrite HmB. now apply HA. }
  set (q := (mk_get "/api/queue", queue_answer)).
  set (w := spawn Static.refreshQueue (spawn Static.refreshQueue w0)).
  assert (Hw : pending w = ((pending w0 ++ [q]) ++ [q])%list /\ doc w = doc w0 /\
               unhandled w = unhandled w0).
  { unfold w, spawn. rewrite refreshQueue_eq. cbn [resume doc set_doc set_pending log_sent].
    rewrite refreshQueue_eq. repeat split. }
  destruct Hw as (Hpend & Hdoc & Hun).
  destruct (answer_queue_read StaticPage.handlers w (S (length (pending w0)))
              (mk_get "/api/queue") dataB pB) as (HdB & HuB & kc & HpB).
  { rewrite Hpend. apply list_lookup_middle. rewrite length_app. cbn. lia. }
  { now rewrite Hdoc. }
  set (wB := step StaticPage.handlers w _) in *.
  assert (HpB' : pending wB = ((pending w0 ++ [q]) ++ [(mk_get "/api/current", kc)])%list).
  { rewrite HpB, Hpend.
    replace (S (length (pending w0))) with (length (pending w0 ++ [q]))
      by (rewrite length_app; cbn; lia).
    now rewrite delete_middle, app_nil_r. }
  destruct (answer_queue_read StaticPage.handlers wB (length (pending w0))
              (mk_get "/api/queue") dataA pA) as (HdA & HuA & _).
  { rewrite HpB', <- app_assoc. now apply list_lookup_middle. }
  { now rewrite HdB. }
  split; [rewrite HdB; exact (render_queue_hashes dataB (doc w0) pB HrB)|].
  split; [rewrite HdA; exact (render_queue_hashes dataA pB pA HrA)|].
  congruence.
Qed.

Lemma last_answer_wins_witness :
  let w0 := boot demo_page in
  let n := length (pending w0) in
  let w := spawn Static.refreshQueue (spawn Static.refreshQueue w0) in
  let wB := step StaticPage.handlers w (Ev_response (S n) (RespQueue ["c"; "b"])) in
  let wA := step StaticPage.handlers wB (Ev_response n (RespQueue ["a"; "b"; "a"])) in
  qi_hash <$> queue_list (doc wB) = ["c"; "b"] /\
  qi_hash <$> queue_list (doc wA) = ["a"; "b"; "a"] /\
  unhandled wA = unhandled w0.
Proof.
  apply (last_answer_wins (boot demo_page) ["a"; "b"; "a"] ["c"; "b"]);
    intros h Hin; apply list_elem_of_In in Hin; cbn in Hin;
    repeat (destruct Hin as [<-|Hin]; [vm_compute; eauto|]); destruct Hin.
Defined.

(** ** A queue with a stale identifier *)

Lemma forEach_from_app {A} (f : A -> nat -> Sync unit) (l1 l2 : list A) :
  forall (i : nat) (p p1 : page),
    forEach_from i f l1 p = (p1, Normal tt) ->
    forEach_from i f (l1 ++ l2) p = forEach_from (i + length l1) f l2 p1.
Proof.
  induction l1 as [|x l1 IH]; intros i p p1 Hrun.
  - injection Hrun as <-. cbn. now rewrite Nat.add_0_r.
  - cbn [app forEach_from length] in *.
    unfold mbind, Sync_bind, bind in *.
    destruct (f x i p) as [p0 [[]|e]]; [|discriminate Hrun].
    rewrite (IH (S i) p0 p1 Hrun). f_equal. lia.
Qed.

(** X19: rendering stops at the first identifier the catalog lacks (a
    string that is not a name every object inherits): it throws a
    [TypeError] and leaves the very page that rendering the identifiers
    before it would leave, so the list shows their rows, in order, and no
    row for the missing identifier or for any after it; the now-playing
    line and the title are as they were. *)
Theorem render_queue_stops (pre post : list string) (h : string) (p : page) :
  (forall h', h' ∈ pre -> is_Some (musics p !! h')) ->
  musics p !! h = None ->
  JS.inherited_key h = false ->
  exists p',
    Static.render_queue pre p = (p', Normal tt) /\
    Static.render_queue (pre ++ h :: post) p = (p', Thrown undefined_property) /\
    qi_hash <$> queue_list p' = pre /\
    (forall (k : nat) (x : string), pre !! k = Some x ->
       exists t, musics p !! x = Some t /\ queue_list p' !! k = Some (static_row x k t)) /\
    now_playing p' = now_playing p /\ title p' = title p.
Proof.
  intros Hall Hm _.
  destruct (render_queue_complete pre p Hall) as (p' & Hpre).
  destruct (render_queue_inv pre p p' Hpre) as ((Hmus & _ & Hnp & Ht) & _ & Hrows).
  exists p'. split; [exact Hpre|]. split; [|split; [|split; [exact Hrows|split; assumption]]].
  - unfold Static.render_queue, forEach in *.
    rewrite (bind_normal _ _ p (set_queue_list [] p) tt eq_refl) in *.
    rewrite (forEach_from_app Static.queue_row pre (h :: post) 0 _ p' Hpre).
    cbn [forEach_from]. apply bind_thrown.
    apply queue_row_missing. now rewrite Hmus.
  - exact (render_queue_hashes pre p p' Hpre).
Qed.

Lemma render_queue_stops_witness :
  exists p',
    Static.render_queue ["a"; "b"] demo_page = (p', Normal tt) /\
    Static.render_queue (["a"; "b"] ++ "zz" :: ["c"]) demo_page
      = (p', Thrown undefined_property) /\
    qi_hash <$> queue_list p' = ["a"; "b"] /\
    (forall (k : nat) (x : string), ["a"; "b"] !! k = Some x ->
       exists t, musics demo_page !! x = Some t /\
                 queue_list p' !! k = Some (static_row x k t)) /\
    now_playing p' = now_playing demo_page /\ title p' = title demo_page.
Proof.
  apply (render_queue_stops ["a"; "b"] ["c"] "zz" demo_page).
  - intros h Hin. apply list_elem_of_In in Hin. cbn in Hin.
    destruct Hin as [<-|[<-|[]]]; vm_compute; eauto.
  - vm_compute. reflexivity.
  - reflexivity.
Defined.
